(** * coredns-nftables: connection pool, recency cache and dispatcher

    A shallow embedding of [nftables.go] (the handler: [ServeWorker],
    [ServeDNS]) and of the cache file ([NewCache], [CloseCache],
    [ClearCache], [LruIgnoreIp], [LruUpdateIp], [gc],
    [MutableNftablesTable]).

    Conventions.
    - [time.Time] and [time.Duration] are integers (nanoseconds);
      [t.Add d] is [t + d], [t.After u] is [u < t] and [time.Since t] is
      the current clock reading minus [t].
    - Go's [int] is the 64-bit two's-complement integer; [+=] wraps.
    - A [NftablesCache] is handled through a pointer: the model passes the
      pointer (a number, fresh at every allocation) next to the value it
      points to.
    - The address of a record is the text [net.IP.String] gives, which is
      never empty (a missing address prints as ["<nil>"]); the test
      [len(ip) == 0] of the code is kept, and the statements that need it
      say that the address is not empty.
    - The hashicorp LRU, the nftables connection, the next plugin, the
      response writer and the rule appliers are libraries or collaborators:
      the LRU is modelled in [Module lru], the others are the fields of
      [Class External].
    - Log output is not modelled.  The [trace] of the world records, in
      order, the calls made to collaborators (for a rule applier, with what
      it returned), the goroutines started and the invocations of the
      recency-cache methods. *)

From Stdlib Require Import ZArith List Lia Bool.
From Equations Require Import Equations.
From stdpp Require Import gmap strings list fin_maps.

Local Open Scope Z_scope.

(** ** Go integers *)

Definition int_min : Z := - 2 ^ 63.
Definition int_max : Z := 2 ^ 63 - 1.

(** Two's-complement wrap-around of a 64-bit [int]. *)
Definition int_wrap (z : Z) : Z := (z + 2 ^ 63) mod 2 ^ 64 - 2 ^ 63.

Definition int_add (a b : Z) : Z := int_wrap (a + b).

(** ** DNS records ([dns.RR])

    The switch on [Header().Rrtype] and the type assertions to [dns.A] and
    [dns.AAAA] are a case analysis on the record; the address is kept in
    the text form [A.String()] gives. *)

Inductive RR : Type :=
| RR_A (name : string) (A : string)
| RR_AAAA (name : string) (AAAA : string)
| RR_Other (name : string).

Record Msg : Type := { Answer : list RR }.

Definition RcodeSuccess : Z := 0.
Definition RcodeFormatError : Z := 1.
Definition RcodeServerFailure : Z := 2.

(** ** nftables types ([nftables.TableFamily] is a byte) *)

Definition TableFamily : Type := N.

Definition TableFamilyUnspecified : TableFamily := 0%N.
Definition TableFamilyINet : TableFamily := 1%N.
Definition TableFamilyIPv4 : TableFamily := 2%N.
Definition TableFamilyARP : TableFamily := 3%N.
Definition TableFamilyNetdev : TableFamily := 5%N.
Definition TableFamilyBridge : TableFamily := 7%N.
Definition TableFamilyIPv6 : TableFamily := 10%N.

Record Table : Type := { Family : TableFamily; Name : string }.

Definition Error : Type := string.

(** ** The hashicorp LRU ([lru.Cache]), keys are strings

    [items] is the eviction list: the head is the most recently used entry,
    the last element the oldest one. *)

Module lru.
Section cache.
Context {V : Type}.

Record Cache : Type := mk { cap : nat; items : list (string * V) }.

(** [lru.New size]: an error (no cache) unless [size] is positive. *)
Definition New (n : Z) : option Cache :=
  if n <=? 0 then None else Some (mk (Z.to_nat n) []).

Fixpoint find (k : string) (l : list (string * V)) : option V :=
  match l with
  | [] => None
  | (k', v) :: l' => if String.eqb k k' then Some v else find k l'
  end.

Fixpoint remove (k : string) (l : list (string * V)) : list (string * V) :=
  match l with
  | [] => []
  | (k', v) :: l' => if String.eqb k k' then remove k l' else (k', v) :: remove k l'
  end.

Definition Len (c : Cache) : nat := length (items c).

(** [Peek]: the value, recency untouched. *)
Definition Peek (k : string) (c : Cache) : option V := find k (items c).

(** [Get]: the value, and the entry moves to the front. *)
Definition Get (k : string) (c : Cache) : option V * Cache :=
  match find k (items c) with
  | Some v => (Some v, mk (cap c) ((k, v) :: remove k (items c)))
  | None => (None, c)
  end.

(** [Add]: an existing key is overwritten and moved to the front; a new
    one is pushed to the front, and the oldest entry is evicted when the
    list has become longer than [cap]. *)
Definition Add (k : string) (v : V) (c : Cache) : Cache :=
  match find k (items c) with
  | Some _ => mk (cap c) ((k, v) :: remove k (items c))
  | None =>
      let l := (k, v) :: items c in
      if (cap c <? length l)%nat then mk (cap c) (removelast l) else mk (cap c) l
  end.

Definition GetOldest (c : Cache) : option (string * V) := last (items c).

Definition RemoveOldest (c : Cache) : Cache := mk (cap c) (removelast (items c)).

(** A write through the pointer stored under [k] (the values of the cache
    are pointers): the entry keeps its place. *)
Fixpoint store (k : string) (f : V -> V) (l : list (string * V)) : list (string * V) :=
  match l with
  | [] => []
  | (k', v) :: l' => if String.eqb k k' then (k', f v) :: l' else (k', v) :: store k f l'
  end.

Definition Store (k : string) (f : V -> V) (c : Cache) : Cache :=
  mk (cap c) (store k f (items c)).

Definition keys (c : Cache) : list string := map fst (items c).
End cache.
Arguments Cache : clear implicits.
End lru.

(** ** The cache file: data *)

Record NftableCache : Type := {
  table : Table;
  setCache : gmap string (gmap string Z)
}.

Record NftableIPCache : Type := {
  ExpireTime : Z;
  ApplyCount : Z
}.

(** Pointers to [NftablesCache] values, and [nftables.Conn] handles. *)
Definition Ptr : Type := nat.

Definition Conn : Type := nat.

Record NftablesCache : Type := {
  tables : gmap TableFamily (gmap string NftableCache);
  recentlyIPCache : option (lru.Cache NftableIPCache);
  CreateTimepoint : Z;
  NftableConnection : Conn;
  NetworkNamespace : Z;
  HasNftableConnectionError : bool
}.

Definition with_recentlyIPCache (r : option (lru.Cache NftableIPCache))
    (cache : NftablesCache) : NftablesCache :=
  {| tables := tables cache;
     recentlyIPCache := r;
     CreateTimepoint := CreateTimepoint cache;
     NftableConnection := NftableConnection cache;
     NetworkNamespace := NetworkNamespace cache;
     HasNftableConnectionError := HasNftableConnectionError cache |}.

Definition with_tables (t : gmap TableFamily (gmap string NftableCache))
    (cache : NftablesCache) : NftablesCache :=
  {| tables := t;
     recentlyIPCache := recentlyIPCache cache;
     CreateTimepoint := CreateTimepoint cache;
     NftableConnection := NftableConnection cache;
     NetworkNamespace := NetworkNamespace cache;
     HasNftableConnectionError := HasNftableConnectionError cache |}.

Definition with_HasNftableConnectionError (b : bool)
    (cache : NftablesCache) : NftablesCache :=
  {| tables := tables cache;
     recentlyIPCache := recentlyIPCache cache;
     CreateTimepoint := CreateTimepoint cache;
     NftableConnection := NftableConnection cache;
     NetworkNamespace := NetworkNamespace cache;
     HasNftableConnectionError := b |}.

(** ** The handler file: data *)

Record NftablesSetAddElement : Type := { TableName : string; SetName : string }.

Record NftablesRuleSet : Type := { RuleAddElement : list NftablesSetAddElement }.

Record NftablesHandler : Type := { Rules : gmap TableFamily NftablesRuleSet }.

(** ** The world outside the two files *)

(** The events of the trace: the calls to the engine ([nftables.New],
    [Flush], [ListTablesOfFamily], [AddTable], the close of a network
    namespace), to a rule applier (with the error and the [ignored] flag it
    returned), to the next plugin, to the response writer and to the two
    metrics; the goroutines started ([go destroy], [go ServeWorker]); and
    the invocations of [destroy], [LruIgnoreIp], [LruUpdateIp] and [gc]. *)
Inductive Event : Type :=
| EvNew
| EvFlush (c : Conn)
| EvListTablesOfFamily (c : Conn) (family : TableFamily)
| EvAddTable (c : Conn) (t : Table)
| EvNsClose (ns : Z)
| EvRuleServeDNS (rule : NftablesSetAddElement) (answer : RR) (family : TableFamily)
    (err : option Error) (ignored : bool)
| EvNextOrFailure (r : Msg)
| EvWriteMsg (r : Msg)
| EvRecordCountInc
| EvRecordDurationObserve (us : Z)
| EvGoDestroy (p : Ptr)
| EvGoServeWorker (r : Msg)
| EvDestroy (p : Ptr)
| EvLruIgnoreIp (answer : RR)
| EvLruUpdateIp (answer : RR) (rulesCounter : Z)
| EvGc.

(** What a collaborator may read and change besides its arguments: the
    state of the packet-filter engine (and of whatever else lives outside
    the process) and the number of clock readings taken so far. *)
Record Outside (Engine : Type) : Type := {
  engine : Engine;
  ticks : nat
}.
Arguments engine {Engine} _.
Arguments ticks {Engine} _.

(** The collaborators.  [clock n] is what the [n]-th reading of the clock
    returns.  [nft_New] is [nftables.New()]; [nft_ListTablesOfFamily] gives
    [None] for a nil slice (its error is dropped by the caller);
    [rule_ServeDNS] is the rule applier ([NftablesSetAddElement.ServeDNS],
    whose code is in neither file), which receives the connection and
    returns it as it has left it, with its error and its [ignored] flag;
    [NextOrFailure] runs the next plugin on a non-writer and gives its code,
    its error and the message the non-writer has captured. *)
Class External : Type := {
  Engine : Type;
  clock : nat -> Z;
  nft_New : Engine -> (Error + Conn) * Engine;
  nft_Flush : Conn -> Engine -> option Error * Engine;
  nft_ListTablesOfFamily : Conn -> TableFamily -> Engine -> option (list Table) * Engine;
  nft_AddTable : Conn -> Table -> Engine -> Table * Engine;
  netns_Close : Z -> Engine -> option Error * Engine;
  rule_ServeDNS : NftablesSetAddElement -> NftablesCache -> RR -> TableFamily ->
                  Outside Engine -> (option Error * bool) * NftablesCache * Outside Engine;
  NextOrFailure : Msg -> Engine -> (Z * option Error * option Msg) * Engine;
  WriteMsg : Msg -> Engine -> option Error * Engine
}.

Section Program.
Context {X : External}.

(** The package-level variables ([cacheList] and the five settings), the
    allocator, the outside and the trace. *)
Record World : Type := {
  outside : Outside Engine;
  cacheList : list (Ptr * NftablesCache);
  next_ptr : Ptr;
  trace : list Event;
  cacheExpiredDuration : Z;
  setLruMaxRetryTimes : Z;
  setLruMaxCount : Z;
  setLruTimeout : Z;
  asyncMode : bool
}.

Definition with_outside (o : Outside Engine) (w : World) : World :=
  {| outside := o; cacheList := cacheList w; next_ptr := next_ptr w;
     trace := trace w; cacheExpiredDuration := cacheExpiredDuration w;
     setLruMaxRetryTimes := setLruMaxRetryTimes w;
     setLruMaxCount := setLruMaxCount w; setLruTimeout := setLruTimeout w;
     asyncMode := asyncMode w |}.

Definition with_cacheList (l : list (Ptr * NftablesCache)) (w : World) : World :=
  {| outside := outside w; cacheList := l; next_ptr := next_ptr w;
     trace := trace w; cacheExpiredDuration := cacheExpiredDuration w;
     setLruMaxRetryTimes := setLruMaxRetryTimes w;
     setLruMaxCount := setLruMaxCount w; setLruTimeout := setLruTimeout w;
     asyncMode := asyncMode w |}.

Definition with_next_ptr (p : Ptr) (w : World) : World :=
  {| outside := outside w; cacheList := cacheList w; next_ptr := p;
     trace := trace w; cacheExpiredDuration := cacheExpiredDuration w;
     setLruMaxRetryTimes := setLruMaxRetryTimes w;
     setLruMaxCount := setLruMaxCount w; setLruTimeout := setLruTimeout w;
     asyncMode := asyncMode w |}.

Definition with_trace (t : list Event) (w : World) : World :=
  {| outside := outside w; cacheList := cacheList w; next_ptr := next_ptr w;
     trace := t; cacheExpiredDuration := cacheExpiredDuration w;
     setLruMaxRetryTimes := setLruMaxRetryTimes w;
     setLruMaxCount := setLruMaxCount w; setLruTimeout := setLruTimeout w;
     asyncMode := asyncMode w |}.

(** *** The state monad of the program *)

Definition M (A : Type) : Type := World -> A * World.

Definition ret {A} (a : A) : M A := fun w => (a, w).

Definition bind {A B} (m : M A) (k : A -> M B) : M B :=
  fun w => let (a, w') := m w in k a w'.

Notation "'let!' x ':=' m 'in' k" := (bind m (fun x => k))
  (at level 10, x pattern, m at level 100, k at level 200).
Notation "'run!' m 'in' k" := (bind m (fun _ => k))
  (at level 10, m at level 100, k at level 200).

Definition read {A} (f : World -> A) : M A := fun w => (f w, w).

(** The event is appended to the trace. *)
Definition emit (e : Event) : M unit :=
  fun w => (tt, with_trace (trace w ++ [e]) w).

(** A call of an engine operation. *)
Definition extern {A} (e : Event) (op : Engine -> A * Engine) : M A :=
  run! emit e in
  fun w => let (a, g) := op (engine (outside w)) in
           (a, with_outside {| engine := g; ticks := ticks (outside w) |} w).

(** [time.Now()]. *)
Definition time_Now : M Z :=
  fun w => (clock (ticks (outside w)),
            with_outside {| engine := engine (outside w);
                            ticks := S (ticks (outside w)) |} w).

(** [time.Since t]. *)
Definition time_Since (t : Z) : M Z := let! now := time_Now in ret (now - t).

(** *** The recency cache *)

(** The loop of [gc]: while the cache is not empty, look at the oldest
    entry; stop if there is none or if it expires after [now], remove it
    otherwise. *)
Equations? gc_loop (now : Z) (c : lru.Cache NftableIPCache) :
    lru.Cache NftableIPCache by wf (lru.Len c) lt :=
  gc_loop now c with negb (lru.Len c =? 0)%nat := {
    | false => c
    | true with Logic.inspect (lru.GetOldest c) := {
        | exist _ None _ => c
        | exist _ (Some (_, value)) Hold =>
            if now <? ExpireTime value then c
            else gc_loop now (lru.RemoveOldest c) } }.
Proof.
  unfold lru.Len, lru.RemoveOldest, lru.GetOldest in *.
  destruct c as [n l]; simpl in *.
  apply last_Some in Hold as [l' ->].
  rewrite removelast_last, length_app; simpl; lia.
Qed.

Definition LruIgnoreIp (cache : NftablesCache) (answer : RR) : M (bool * NftablesCache) :=
  run! emit (EvLruIgnoreIp answer) in
  match recentlyIPCache cache with
  | None => ret (false, cache)
  | Some c =>
      match (match answer with
             | RR_A _ a => Some a
             | RR_AAAA _ a => Some a
             | RR_Other _ => None
             end) with
      | None => ret (false, cache)
      | Some ip =>
          if (String.length ip =? 0)%nat then ret (false, cache)
          else
            let (value, c') := lru.Get ip c in
            let cache' := with_recentlyIPCache (Some c') cache in
            match value with
            | Some v =>
                let! maxRetry := read setLruMaxRetryTimes in
                ret (maxRetry <=? ApplyCount v, cache')
            | None => ret (false, cache')
            end
      end
  end.

Definition LruUpdateIp (cache : NftablesCache) (answer : RR) (rulesCounter : Z) :
    M NftablesCache :=
  run! emit (EvLruUpdateIp answer rulesCounter) in
  match recentlyIPCache cache with
  | None => ret cache
  | Some c =>
      match (match answer with
             | RR_A _ a => Some a
             | RR_AAAA _ a => Some a
             | RR_Other _ => None
             end) with
      | None => ret cache
      | Some ip =>
          if (String.length ip =? 0)%nat then ret cache
          else
            let (value, c') := lru.Get ip c in
            match value with
            | Some _ =>
                let bump v := {| ExpireTime := ExpireTime v;
                                 ApplyCount := int_add (ApplyCount v) 1 |} in
                ret (with_recentlyIPCache (Some (lru.Store ip bump c')) cache)
            | None =>
                let! now := time_Now in
                let! timeout := read setLruTimeout in
                let fresh := {| ExpireTime := now + timeout; ApplyCount := 1 |} in
                ret (with_recentlyIPCache (Some (lru.Add ip fresh c')) cache)
            end
      end
  end.

Definition gc (cache : NftablesCache) : M NftablesCache :=
  run! emit EvGc in
  match recentlyIPCache cache with
  | None => ret cache
  | Some c =>
      let! now := time_Now in
      ret (with_recentlyIPCache (Some (gc_loop now c)) cache)
  end.

(** *** The connection pool *)

Definition cleanupSystemNFTConn (newNS : Z) : M unit :=
  if newNS =? 0 then ret tt
  else run! extern (EvNsClose newNS) (netns_Close newNS) in ret tt.

Definition destroy (p : Ptr) (cache : NftablesCache) : M (option Error) :=
  run! emit (EvDestroy p) in
  run! cleanupSystemNFTConn (NetworkNamespace cache) in
  ret None.

(** [go cache.destroy()]: the goroutine is started, the caller goes on. *)
Definition go_destroy (p : Ptr) : M unit := emit (EvGoDestroy p).

Definition openSystemNFTConn : M (Error + Conn * Z) :=
  let! r := extern EvNew nft_New in
  match r with
  | inl err => ret (inl err)
  | inr c => ret (inr (c, 0))
  end.

Definition set_cacheList (l : list (Ptr * NftablesCache)) : M unit :=
  fun w => (tt, with_cacheList l w).

(** A new pointer ([&NftablesCache{...}]). *)
Definition alloc : M Ptr :=
  fun w => (next_ptr w, with_next_ptr (S (next_ptr w)) w).

(** The loop of [NewCache] over the list it finds in [cacheList]: the front
    is removed and either destroyed in a goroutine or, after [gc],
    returned. *)
Fixpoint NewCache_loop (l : list (Ptr * NftablesCache)) : M (option (Ptr * NftablesCache)) :=
  match l with
  | [] => ret None
  | (p, cacheHead) :: rest =>
      run! set_cacheList rest in
      let! age := time_Since (CreateTimepoint cacheHead) in
      let! expired := read cacheExpiredDuration in
      if expired <? age then
        run! go_destroy p in
        NewCache_loop rest
      else
        let! cacheHead' := gc cacheHead in
        ret (Some (p, cacheHead'))
  end.

(** The rest of [NewCache], reached when the loop has emptied the list:
    a connection is opened and wrapped in a new cache. *)
Definition NewCache_open : M (Error + Ptr * NftablesCache) :=
  let! r := openSystemNFTConn in
  match r with
  | inl err => ret (inl err)
  | inr (c, newNS) =>
      let! maxCount := read setLruMaxCount in
      let lruCache := lru.New maxCount in
      let! now := time_Now in
      let! p := alloc in
      ret (inr (p, {| tables := ∅;
                      recentlyIPCache := lruCache;
                      CreateTimepoint := now;
                      NftableConnection := c;
                      NetworkNamespace := newNS;
                      HasNftableConnectionError := false |}))
  end.

Definition NewCache : M (Error + Ptr * NftablesCache) :=
  let! l := read cacheList in
  let! found := NewCache_loop l in
  match found with
  | Some pc => ret (inr pc)
  | None => NewCache_open
  end.

Definition CloseCache (p : Ptr) (cache : NftablesCache) : M (option Error) :=
  let! err := extern (EvFlush (NftableConnection cache))
                     (nft_Flush (NftableConnection cache)) in
  let cache := match err with
               | Some _ => with_HasNftableConnectionError true cache
               | None => cache
               end in
  let! discard :=
    (if HasNftableConnectionError cache then ret true
     else
       let! age := time_Since (CreateTimepoint cache) in
       let! expired := read cacheExpiredDuration in
       ret (expired <? age)) in
  if discard then destroy p cache
  else
    let! l := read cacheList in
    run! set_cacheList (l ++ [(p, cache)]) in
    ret None.

Fixpoint ClearCache_loop (l : list (Ptr * NftablesCache)) : M unit :=
  match l with
  | [] => ret tt
  | (p, _) :: rest =>
      run! set_cacheList rest in
      run! go_destroy p in
      ClearCache_loop rest
  end.

Definition ClearCache : M unit :=
  let! l := read cacheList in ClearCache_loop l.

(** *** The metadata cache *)

Definition MutableNftablesTable (cache : NftablesCache) (family : TableFamily)
    (tableName : string) : M (NftableCache * NftablesCache) :=
  let tableSet := match tables cache !! family with
                  | Some ts => ts
                  | None => ∅
                  end in
  let! tableSet :=
    (if (size tableSet =? 0)%nat then
       let! listed := extern (EvListTablesOfFamily (NftableConnection cache) family)
                             (nft_ListTablesOfFamily (NftableConnection cache) family) in
       match listed with
       | Some ts =>
           ret (foldl (fun m t => <[Name t := {| table := t; setCache := ∅ |}]> m)
                      tableSet ts)
       | None => ret tableSet
       end
     else ret tableSet) in
  match tableSet !! tableName with
  | Some tableCache =>
      ret (tableCache, with_tables (<[family := tableSet]> (tables cache)) cache)
  | None =>
      let t := {| Family := family; Name := tableName |} in
      let! t' := extern (EvAddTable (NftableConnection cache) t)
                        (nft_AddTable (NftableConnection cache) t) in
      let tableCache := {| table := t'; setCache := ∅ |} in
      ret (tableCache,
           with_tables (<[family := <[tableName := tableCache]> tableSet]> (tables cache))
                       cache)
  end.

(** *** The handler *)

(** [rule.ServeDNS(ctx, cache, &answer, family)]; the trace gets the call
    together with what it has returned. *)
Definition call_rule (rule : NftablesSetAddElement) (cache : NftablesCache)
    (answer : RR) (family : TableFamily) : M (option Error * bool * NftablesCache) :=
  let! (r, cache') :=
    (fun w => let '(r, cache', o) := rule_ServeDNS rule cache answer family (outside w) in
              ((r, cache'), with_outside o w)) in
  run! emit (EvRuleServeDNS rule answer family r.1 r.2) in
  ret (r, cache').

(** The inner loop of [ServeWorker], over the rules of one family; the
    state is [(hasError, applyCounter, cache)]. *)
Fixpoint serve_rules (answer : RR) (family : TableFamily)
    (rules : list NftablesSetAddElement) (st : bool * Z * NftablesCache) :
    M (bool * Z * NftablesCache) :=
  match rules with
  | [] => ret st
  | rule :: rest =>
      let '(hasError, applyCounter, cache) := st in
      let! (err, ignored, cache) := call_rule rule cache answer family in
      match err with
      | Some _ => serve_rules answer family rest (true, applyCounter, cache)
      | None =>
          if negb ignored
          then serve_rules answer family rest (hasError, int_add applyCounter 1, cache)
          else serve_rules answer family rest (hasError, applyCounter, cache)
      end
  end.

(** The loop over [tableFamilies]. *)
Fixpoint serve_families (m : NftablesHandler) (answer : RR)
    (families : list TableFamily) (st : bool * Z * NftablesCache) :
    M (bool * Z * NftablesCache) :=
  match families with
  | [] => ret st
  | family :: rest =>
      match Rules m !! family with
      | Some ruleSet =>
          let! st := serve_rules answer family (RuleAddElement ruleSet) st in
          serve_families m answer rest st
      | None => serve_families m answer rest st
      end
  end.

(** The switch at the head of the loop body: [tableFamilies] ([None] is the
    nil slice) and the cache after the look-up. *)
Definition resolve_families (cache : NftablesCache) (answer : RR) :
    M (option (list TableFamily) * NftablesCache) :=
  match answer with
  | RR_A _ _ =>
      let! (ignore, cache) := LruIgnoreIp cache answer in
      if ignore then ret (None, cache)
      else
        run! emit EvRecordCountInc in
        ret (Some [TableFamilyIPv4; TableFamilyINet; TableFamilyBridge], cache)
  | RR_AAAA _ _ =>
      let! (ignore, cache) := LruIgnoreIp cache answer in
      if ignore then ret (None, cache)
      else
        run! emit EvRecordCountInc in
        ret (Some [TableFamilyIPv6; TableFamilyINet; TableFamilyBridge], cache)
  | RR_Other _ => ret (None, cache)
  end.

(** The body of the loop over [r.Answer]. *)
Definition serve_answer (m : NftablesHandler) (cache : NftablesCache) (answer : RR) :
    M NftablesCache :=
  let! (tableFamilies, cache) := resolve_families cache answer in
  match tableFamilies with
  | None => ret cache
  | Some families =>
      let! (hasError, applyCounter, cache) :=
        serve_families m answer families (false, 0, cache) in
      if negb hasError then LruUpdateIp cache answer applyCounter
      else ret cache
  end.

Fixpoint serve_answers (m : NftablesHandler) (cache : NftablesCache)
    (answers : list RR) : M NftablesCache :=
  match answers with
  | [] => ret cache
  | answer :: rest =>
      let! cache := serve_answer m cache answer in
      serve_answers m cache rest
  end.

Definition exportRecordDuration (start : Z) : M unit :=
  let! d := time_Since start in
  emit (EvRecordDurationObserve (d ÷ 1000)).

(** [ServeWorker]: the two deferred calls run, last one first, after the
    loop; the function returns the [err] of [NewCache], which is nil once
    the loop is reached. *)
Definition ServeWorker (m : NftablesHandler) (r : Msg) : M (option Error) :=
  let! res := NewCache in
  match res with
  | inl err => ret (Some err)
  | inr (p, cache) =>
      let! start := time_Now in
      let! cache := serve_answers m cache (Answer r) in
      run! exportRecordDuration start in
      run! CloseCache p cache in
      ret None
  end.

Definition is_address_record (answer : RR) : bool :=
  match answer with
  | RR_A _ _ | RR_AAAA _ _ => true
  | RR_Other _ => false
  end.

(** [ServeDNS]; [go m.ServeWorker(...)] starts the worker and goes on. *)
Definition ServeDNS (m : NftablesHandler) (r : Msg) : M (Z * option Error) :=
  let! startTime := time_Now in
  let! (rcode, err, nwMsg) := extern (EvNextOrFailure r) (NextOrFailure r) in
  match err with
  | Some e => ret (rcode, Some e)
  | None =>
      let! nextPluginTime := time_Now in
      match nwMsg with
      | None => ret (RcodeFormatError, Some "no answer received"%string)
      | Some r =>
          let hasValidRecord := existsb is_address_record (Answer r) in
          if negb hasValidRecord then
            let! err := extern (EvWriteMsg r) (WriteMsg r) in
            match err with
            | Some e => ret (RcodeFormatError, Some e)
            | None => ret (RcodeSuccess, None)
            end
          else
            let! async := read asyncMode in
            if async then
              let copyMsg := r in
              let! err := extern (EvWriteMsg r) (WriteMsg r) in
              run! emit (EvGoServeWorker copyMsg) in
              match err with
              | Some e => ret (RcodeServerFailure, Some e)
              | None =>
                  let! endTime := time_Now in
                  ret (rcode, None)
              end
            else
              run! ServeWorker m r in
              let! err := extern (EvWriteMsg r) (WriteMsg r) in
              let! endTime := time_Now in
              ret (rcode, None)
      end
  end.

(** *** The setters of the package-level variables *)

Definition SetConnectionTimeout (timeout : Z) : M unit :=
  fun w =>
    (tt, {| outside := outside w; cacheList := cacheList w; next_ptr := next_ptr w;
            trace := trace w; cacheExpiredDuration := timeout;
            setLruMaxRetryTimes := setLruMaxRetryTimes w;
            setLruMaxCount := setLruMaxCount w; setLruTimeout := setLruTimeout w;
            asyncMode := asyncMode w |}).

Definition SetSetLruTimeout (timeout : Z) : M unit :=
  fun w =>
    (tt, {| outside := outside w; cacheList := cacheList w; next_ptr := next_ptr w;
            trace := trace w; cacheExpiredDuration := cacheExpiredDuration w;
            setLruMaxRetryTimes := setLruMaxRetryTimes w;
            setLruMaxCount := setLruMaxCount w; setLruTimeout := timeout;
            asyncMode := asyncMode w |}).

Definition SetSetLruMaxCount (count : Z) : M unit :=
  fun w =>
    (tt, {| outside := outside w; cacheList := cacheList w; next_ptr := next_ptr w;
            trace := trace w; cacheExpiredDuration := cacheExpiredDuration w;
            setLruMaxRetryTimes := setLruMaxRetryTimes w;
            setLruMaxCount := count; setLruTimeout := setLruTimeout w;
            asyncMode := asyncMode w |}).

Definition SetSetLruMaxRetryTimes (times : Z) : M unit :=
  fun w =>
    (tt, {| outside := outside w; cacheList := cacheList w; next_ptr := next_ptr w;
            trace := trace w; cacheExpiredDuration := cacheExpiredDuration w;
            setLruMaxRetryTimes := times;
            setLruMaxCount := setLruMaxCount w; setLruTimeout := setLruTimeout w;
            asyncMode := asyncMode w |}).

Definition SetNftableAsyncMode (mode : bool) : M unit :=
  fun w =>
    (tt, {| outside := outside w; cacheList := cacheList w; next_ptr := next_ptr w;
            trace := trace w; cacheExpiredDuration := cacheExpiredDuration w;
            setLruMaxRetryTimes := setLruMaxRetryTimes w;
            setLruMaxCount := setLruMaxCount w; setLruTimeout := setLruTimeout w;
            asyncMode := mode |}).

End Program.

Notation "'let!' x ':=' m 'in' k" := (bind m (fun x => k))
  (at level 10, x pattern, m at level 100, k at level 200).
Notation "'run!' m 'in' k" := (bind m (fun _ => k))
  (at level 10, m at level 100, k at level 200).

(** ** A concrete outside, for the examples

    The engine state counts the calls made to it; the script says which
    collaborators fail.  The [n]-th clock reading is [1000 * n]. *)

Record Script : Type := {
  new_fails : bool;
  flush_fails : bool;
  write_fails : bool;
  rule_fails : bool
}.

Definition demo (s : Script) : External := {|
  Engine := nat;
  clock := fun n => 1000 * Z.of_nat n;
  nft_New := fun g =>
    (if new_fails s then inl "nftables.New failed"%string else inr g, S g);
  nft_Flush := fun _ g =>
    (if flush_fails s then Some "flush failed"%string else None, S g);
  nft_ListTablesOfFamily := fun _ _ g => (None, S g);
  nft_AddTable := fun _ t g => (t, S g);
  netns_Close := fun _ g => (None, S g);
  rule_ServeDNS := fun _ cache _ _ o =>
    ((if rule_fails s then Some "no such set"%string else None, false), cache, o);
  NextOrFailure := fun r g => ((RcodeSuccess, None, Some r), S g);
  WriteMsg := fun _ g =>
    (if write_fails s then Some "write failed"%string else None, S g)
|}.

Definition all_well : Script :=
  {| new_fails := false; flush_fails := false; write_fails := false; rule_fails := false |}.

Definition flush_broken : Script :=
  {| new_fails := false; flush_fails := true; write_fails := false; rule_fails := false |}.

Definition new_broken : Script :=
  {| new_fails := true; flush_fails := false; write_fails := false; rule_fails := false |}.

Definition write_broken : Script :=
  {| new_fails := false; flush_fails := false; write_fails := true; rule_fails := false |}.

Definition rule_broken : Script :=
  {| new_fails := false; flush_fails := false; write_fails := false; rule_fails := true |}.

Definition demo_world (s : Script) (pool : list (Ptr * NftablesCache)) (maxRetry : Z) :
    @World (demo s) :=
  {| outside := @Build_Outside (@Engine (demo s)) 0%nat 0%nat;
     cacheList := pool;
     next_ptr := 10%nat;
     trace := [];
     cacheExpiredDuration := 300000;
     setLruMaxRetryTimes := maxRetry;
     setLruMaxCount := 10000;
     setLruTimeout := 5000;
     asyncMode := false |}.

Definition demo_cache (created : Z) (r : option (lru.Cache NftableIPCache)) : NftablesCache :=
  {| tables := ∅;
     recentlyIPCache := r;
     CreateTimepoint := created;
     NftableConnection := 0%nat;
     NetworkNamespace := 0;
     HasNftableConnectionError := false |}.

(** ** Vocabulary of the statements *)

(** The address a record carries, if it is an address record. *)
Definition answer_address (answer : RR) : option string :=
  match answer with
  | RR_A _ a | RR_AAAA _ a => Some a
  | RR_Other _ => None
  end.

(** The recency entry of an address in a connection, read without touching
    the recency order. *)
Definition recency_entry (ip : string) (cache : NftablesCache) : option NftableIPCache :=
  match recentlyIPCache cache with
  | Some c => lru.Peek ip c
  | None => None
  end.

(** What [lru.New] and [LruUpdateIp] maintain: a positive capacity, and no
    entry filed under the empty address. *)
Definition lru_ok (c : lru.Cache NftableIPCache) : Prop :=
  (0 < lru.cap c)%nat ∧ lru.find "" (lru.items c) = None.

Definition recency_ok (cache : NftablesCache) : Prop :=
  ∀ c, recentlyIPCache cache = Some c → lru_ok c.

(** [n] calls of [LruUpdateIp] for one record, one after the other, with the
    [rulesCounter] arguments [ks]. *)
Fixpoint LruUpdateIp_seq {X : External} (cache : NftablesCache) (answer : RR)
    (ks : list Z) : M NftablesCache :=
  match ks with
  | [] => ret cache
  | k :: ks' =>
      let! cache := LruUpdateIp cache answer k in
      LruUpdateIp_seq cache answer ks'
  end.

(** A run of pool operations; the result lists the pointers the calls of
    [NewCache] have returned. *)
Inductive PoolOp : Type :=
| OpNewCache
| OpCloseCache (p : Ptr) (cache : NftablesCache)
| OpClearCache.

Fixpoint run_ops {X : External} (ops : list PoolOp) : M (list Ptr) :=
  match ops with
  | [] => ret []
  | OpNewCache :: ops' =>
      let! r := NewCache in
      let! ps := run_ops ops' in
      ret (match r with
           | inr (p, _) => p :: ps
           | inl _ => ps
           end)
  | OpCloseCache p cache :: ops' =>
      run! CloseCache p cache in
      run_ops ops'
  | OpClearCache :: ops' =>
      run! ClearCache in
      run_ops ops'
  end.

Definition releases (p : Ptr) (op : PoolOp) : Prop :=
  match op with
  | OpCloseCache q _ => q = p
  | _ => False
  end.

(** The pointer has been allocated and is not in the pool: the state of a
    connection that is checked out or discarded. *)
Definition outside_pool {X : External} (p : Ptr) (w : World) : Prop :=
  (p < next_ptr w)%nat ∧ p ∉ (cacheList w).*1.

(** ** Vocabulary of the statements, continued *)

(** What [ApplyCount += 1] makes of an entry. *)
Definition bump (v : NftableIPCache) : NftableIPCache :=
  {| ExpireTime := ExpireTime v; ApplyCount := int_add (ApplyCount v) 1 |}.

(** The world after one more reading of the clock. *)
Definition tick {X : External} (w : World) : World :=
  with_outside {| engine := engine (outside w); ticks := S (ticks (outside w)) |} w.

(** An entry has expired at [now] when its expiry time is not after [now]. *)
Definition expired (now : Z) (kv : string * NftableIPCache) : Prop :=
  ExpireTime kv.2 ≤ now.

(** The world after [n] clock readings and the events [evs], with the list
    [l] in [cacheList]. *)
Definition scanned {X : External} (w : World) (n : nat) (evs : list Event)
    (l : list (Ptr * NftablesCache)) : World :=
  {| outside := {| engine := engine (outside w); ticks := (ticks (outside w) + n)%nat |};
     cacheList := l;
     next_ptr := next_ptr w;
     trace := trace w ++ evs;
     cacheExpiredDuration := cacheExpiredDuration w;
     setLruMaxRetryTimes := setLruMaxRetryTimes w;
     setLruMaxCount := setLruMaxCount w;
     setLruTimeout := setLruTimeout w;
     asyncMode := asyncMode w |}.

(** One [go destroy] for each connection of the list, in order. *)
Definition destroyed_in_goroutines (l : list (Ptr * NftablesCache)) : list Event :=
  (λ pc, EvGoDestroy pc.1) <$> l.

(** [err != nil]. *)
Definition is_error (e : option Error) : bool :=
  match e with
  | Some _ => true
  | None => false
  end.

(** The world after the [Flush] of [CloseCache]. *)
Definition flushed {X : External} (cache : NftablesCache) (w : World) : World :=
  with_outside
    {| engine := (nft_Flush (NftableConnection cache) (engine (outside w))).2;
       ticks := ticks (outside w) |}
    (with_trace (trace w ++ [EvFlush (NftableConnection cache)]) w).

(** What is assumed of the rule appliers: they leave the recency cache of
    the connection alone. *)
Definition applier_keeps_recency {X : External} : Prop :=
  ∀ rule cache answer family o,
    recentlyIPCache (rule_ServeDNS rule cache answer family o).1.2 = recentlyIPCache cache.

(** The applier call recorded by the event returned an error. *)
Definition rule_failed (e : Event) : bool :=
  match e with
  | EvRuleServeDNS _ _ _ (Some _) _ => true
  | _ => false
  end.

(** The applier call recorded by the event returned no error and did not
    report the address as ignored. *)
Definition rule_applied (e : Event) : bool :=
  match e with
  | EvRuleServeDNS _ _ _ None false => true
  | _ => false
  end.

(** The event records an applier call made for the record. *)
Definition is_rule_call (answer : RR) (e : Event) : Prop :=
  ∃ rule family err ignored, e = EvRuleServeDNS rule answer family err ignored.

(** [applyCounter] after the calls, from the value [k]. *)
Definition count_applied (k : Z) (calls : list Event) : Z :=
  foldl (λ acc e, if rule_applied e then int_add acc 1 else acc) k calls.

(** ** The rest of the two files *)

(** [NewNftablesHandler]: no next plugin yet, no rules. *)
Definition NewNftablesHandler : NftablesHandler := {| Rules := ∅ |}.

(** [MutableRuleSet]: the rule set of the family, created empty and stored
    when the handler has none; the result is the rule set and the handler
    as the call leaves it. *)
Definition MutableRuleSet (m : NftablesHandler) (family : TableFamily) :
    NftablesRuleSet * NftablesHandler :=
  match Rules m !! family with
  | Some ret => (ret, m)
  | None =>
      let ret := {| RuleAddElement := [] |} in
      (ret, {| Rules := <[family := ret]> (Rules m) |})
  end.

(** [GetFamilyName]: the cases of the switch, in the order of the source. *)
Definition GetFamilyName (family : TableFamily) : string :=
  if (family =? TableFamilyUnspecified)%N then "unspecified"
  else if (family =? TableFamilyINet)%N then "inet"
  else if (family =? TableFamilyIPv4)%N then "ipv4"
  else if (family =? TableFamilyIPv6)%N then "ipv6"
  else if (family =? TableFamilyARP)%N then "arp"
  else if (family =? TableFamilyNetdev)%N then "netdev"
  else if (family =? TableFamilyBridge)%N then "bridge"
  else "unknown".

(** [SetAddElements]: the call goes to the connection, and an error marks
    the connection.  The set and element types and the operation of the
    connection belong to the nftables library and are parameters; the trace
    has no event for this call. *)
Definition SetAddElements {X : External} {NftSet SetElement : Type}
    (nft_SetAddElements : Conn -> NftSet -> list SetElement -> Engine ->
                          option Error * Engine)
    (cache : NftablesCache) (tableCache : NftableCache) (set : NftSet)
    (elements : list SetElement) : M (option Error * NftablesCache) :=
  let! err :=
    (fun w => let (a, g) := nft_SetAddElements (NftableConnection cache) set elements
                              (engine (outside w)) in
              (a, with_outside {| engine := g; ticks := ticks (outside w) |} w)) in
  match err with
  | Some _ => ret (err, with_HasNftableConnectionError true cache)
  | None => ret (err, cache)
  end.

(** The pointers of the pool are distinct and have all been allocated. *)
Definition pool_wf {X : External} (w : World) : Prop :=
  NoDup (cacheList w).*1 ∧ Forall (λ p, (p < next_ptr w)%nat) (cacheList w).*1.

(** The recency cache holds each address once and no more entries than
    its capacity. *)
Definition lru_bounded (c : lru.Cache NftableIPCache) : Prop :=
  NoDup (lru.keys c) ∧ (lru.Len c ≤ lru.cap c)%nat.

Definition recency_bounded (cache : NftablesCache) : Prop :=
  ∀ c, recentlyIPCache cache = Some c → lru_bounded c.

(** The eviction list without the longest run of entries, at its old end,
    that have expired at [now]. *)
Fixpoint sweep (now : Z) (l : list (string * NftableIPCache)) :
    list (string * NftableIPCache) :=
  match l with
  | [] => []
  | x :: l' =>
      match sweep now l' with
      | [] => if now <? ExpireTime x.2 then [x] else []
      | r => x :: r
      end
  end.

(** The tables a listing puts into the cache. *)
Definition cache_listed (acc : gmap string NftableCache) (ts : list Table) :
    gmap string NftableCache :=
  foldl (λ m t, <[Name t := {| table := t; setCache := ∅ |}]> m) acc ts.

(** The second world has the pool and the allocator of the first. *)
Definition same_pool {X : External} (w w' : World) : Prop :=
  cacheList w' = cacheList w ∧ next_ptr w' = next_ptr w.

(** A second concrete outside: the next plugin fails. *)
Definition upstream_down : External := {|
  Engine := nat;
  clock := fun n => 1000 * Z.of_nat n;
  nft_New := fun g => (inr g, S g);
  nft_Flush := fun _ g => (None, S g);
  nft_ListTablesOfFamily := fun _ _ g => (None, S g);
  nft_AddTable := fun _ t g => (t, S g);
  netns_Close := fun _ g => (None, S g);
  rule_ServeDNS := fun _ cache _ _ o => ((None, false), cache, o);
  NextOrFailure := fun r g =>
    ((RcodeServerFailure, Some "upstream failed"%string, None), S g);
  WriteMsg := fun _ g => (None, S g)
|}.

Definition upstream_down_world : @World upstream_down :=
  {| outside := @Build_Outside (@Engine upstream_down) 0%nat 0%nat;
     cacheList := [];
     next_ptr := 0%nat;
     trace := [];
     cacheExpiredDuration := 300000;
     setLruMaxRetryTimes := 3;
     setLruMaxCount := 10;
     setLruTimeout := 5000;
     asyncMode := false |}.

(** * Proofs *)

(** ** Integers *)

Lemma int_add_small (a b : Z) :
  int_min ≤ a + b ≤ int_max → int_add a b = a + b.
Proof.
  unfold int_add, int_wrap, int_min, int_max. intros H.
  rewrite Z.mod_small; lia.
Qed.

(** ** The LRU *)

Section lru_facts.
Context {V : Type}.
Implicit Types (l : list (string * V)) (k : string).

Lemma find_remove_eq k l : lru.find k (lru.remove k l) = None.
Proof.
  induction l as [|[k' v] l IH]; simpl; [done|].
  destruct (String.eqb k k') eqn:E; [done|]. simpl. by rewrite E.
Qed.

Lemma find_remove_ne k k' l :
  k ≠ k' → lru.find k' (lru.remove k l) = lru.find k' l.
Proof.
  intros Hne. induction l as [|[k1 v] l IH]; simpl; [done|].
  destruct (String.eqb k k1) eqn:E.
  - apply String.eqb_eq in E as <-.
    destruct (String.eqb k' k) eqn:E'; [|done].
    apply String.eqb_eq in E'. congruence.
  - simpl. by rewrite IH.
Qed.

Lemma find_store_eq k f l : lru.find k (lru.store k f l) = f <$> lru.find k l.
Proof.
  induction l as [|[k' v] l IH]; simpl; [done|].
  destruct (String.eqb k k') eqn:E; simpl; by rewrite E.
Qed.

Lemma find_store_ne k k' f l :
  k ≠ k' → lru.find k' (lru.store k f l) = lru.find k' l.
Proof.
  intros Hne. induction l as [|[k1 v] l IH]; simpl; [done|].
  destruct (String.eqb k k1) eqn:E; simpl; [|by rewrite IH].
  apply String.eqb_eq in E as <-.
  destruct (String.eqb k' k) eqn:E'; [|done].
  apply String.eqb_eq in E'. congruence.
Qed.

Lemma find_snoc k l k' v :
  lru.find k (l ++ [(k', v)]) =
  match lru.find k l with
  | Some x => Some x
  | None => if String.eqb k k' then Some v else None
  end.
Proof.
  induction l as [|[k1 v1] l IH]; simpl; [done|].
  by destruct (String.eqb k k1).
Qed.

(** Dropping the oldest entry loses no key but, possibly, its own. *)
Lemma find_removelast_None k l :
  lru.find k l = None → lru.find k (removelast l) = None.
Proof.
  destruct (decide (l = [])) as [->|Hne]; [done|].
  destruct (proj2 (last_is_Some l) Hne) as [[k' v] Hl].
  apply last_Some in Hl as [l' ->].
  rewrite removelast_last, find_snoc.
  by destruct (lru.find k l').
Qed.

Lemma find_removelast_head k v x l :
  lru.find k (removelast ((k, v) :: x :: l)) = Some v.
Proof. simpl. by rewrite String.eqb_refl. Qed.
End lru_facts.

(** ** The recency cache *)

Ltac run_M :=
  repeat (progress (unfold bind, ret, read, emit, extern, time_Since, time_Now,
                      set_cacheList, alloc, go_destroy in *; simpl in * )).

Lemma length_zero_empty (s : string) : (String.length s =? 0)%nat = true ↔ s = ""%string.
Proof.
  rewrite Nat.eqb_eq. destruct s; simpl; split; intros; congruence.
Qed.

(** On a record with a usable address, [LruIgnoreIp] is a [Get] on the
    cache followed by the comparison with the threshold. *)
Lemma LruIgnoreIp_run {X : External} cache answer w c ip :
  recentlyIPCache cache = Some c →
  answer_address answer = Some ip →
  ip ≠ ""%string →
  LruIgnoreIp cache answer w =
    (match lru.find ip (lru.items c) with
     | Some v => setLruMaxRetryTimes w <=? ApplyCount v
     | None => false
     end,
     with_recentlyIPCache (Some (lru.Get ip c).2) cache,
     with_trace (trace w ++ [EvLruIgnoreIp answer]) w).
Proof.
  intros Hc Ha Hip. unfold LruIgnoreIp. run_M. rewrite Hc.
  assert ((String.length ip =? 0)%nat = false) as Hlen.
  { destruct (String.length ip =? 0)%nat eqn:E; [|done].
    by apply length_zero_empty in E. }
  destruct answer as [n a|n a|n]; simpl in Ha;
    [injection Ha as ->|injection Ha as ->|discriminate];
    rewrite Hlen; unfold lru.Get; by destruct (lru.find ip (lru.items c)).
Qed.

(** Without a cache, without an address or with the empty address,
    [LruIgnoreIp] answers no and leaves the connection alone. *)
Lemma LruIgnoreIp_skip {X : External} cache answer w :
  recentlyIPCache cache = None ∨ answer_address answer = None
    ∨ answer_address answer = Some ""%string →
  LruIgnoreIp cache answer w =
    (false, cache, with_trace (trace w ++ [EvLruIgnoreIp answer]) w).
Proof.
  intros H. unfold LruIgnoreIp. run_M.
  destruct (recentlyIPCache cache) as [c|] eqn:Hc; [|done].
  destruct H as [H|[H|H]]; [done| |];
    destruct answer as [n a|n a|n]; simpl in H; try discriminate; try done;
    by injection H as ->.
Qed.

(** C4.  [LruIgnoreIp] answers yes exactly when the connection holds a
    recency entry for the address of the record and the attempt counter of
    that entry has reached [setLruMaxRetryTimes]: without an entry, and with
    a counter below the threshold, the answer is no.  (The connection is one
    in which no entry is filed under the empty address, which is what
    [LruUpdateIp] maintains.) *)
Theorem LruIgnoreIp_true_iff {X : External} (cache : NftablesCache) (answer : RR)
    (w : World) :
  recency_ok cache →
  (LruIgnoreIp cache answer w).1.1 = true ↔
  ∃ ip e, answer_address answer = Some ip
          ∧ recency_entry ip cache = Some e
          ∧ setLruMaxRetryTimes w ≤ ApplyCount e.
Proof.
  intros Hok. unfold recency_entry.
  destruct (recentlyIPCache cache) as [c|] eqn:Hc; cycle 1.
  { rewrite LruIgnoreIp_skip by auto. simpl. split; [done|].
    by intros (ip & e & _ & ? & _). }
  destruct (answer_address answer) as [ip|] eqn:Ha; cycle 1.
  { rewrite LruIgnoreIp_skip by auto. simpl. split; [done|].
    by intros (ip & e & ? & _). }
  destruct (decide (ip = ""%string)) as [->|Hip].
  { rewrite LruIgnoreIp_skip by auto. simpl. split; [done|].
    intros (ip & e & ? & Hf & _). simplify_eq.
    destruct (Hok c Hc) as [_ Hnone]. unfold lru.Peek in Hf. congruence. }
  rewrite (LruIgnoreIp_run _ _ _ c ip) by done. simpl. unfold lru.Peek.
  split.
  - destruct (lru.find ip (lru.items c)) as [v|] eqn:Hf; [|done].
    intros Hle%Z.leb_le. by exists ip, v.
  - intros (ip' & e & ? & Hf & Hle). simplify_eq. rewrite Hf.
    by apply Z.leb_le.
Qed.

Lemma LruIgnoreIp_true_iff_witness :
  let cache := demo_cache 0 (Some (lru.mk 4 [("1.2.3.4"%string,
                 {| ExpireTime := 9000; ApplyCount := 3 |})])) in
  (LruIgnoreIp (X := demo all_well) cache (RR_A "example.org." "1.2.3.4")
     (demo_world all_well [] 3)).1.1 = true.
Proof.
  apply (LruIgnoreIp_true_iff (X := demo all_well)).
  - intros c [= <-]. split; [simpl; lia | reflexivity].
  - exists "1.2.3.4"%string, {| ExpireTime := 9000; ApplyCount := 3 |}.
    repeat split; simpl; lia.
Defined.

Lemma nonempty_length (ip : string) : ip ≠ ""%string → (String.length ip =? 0)%nat = false.
Proof.
  intros Hip. destruct (String.length ip =? 0)%nat eqn:E; [|done].
  by apply length_zero_empty in E.
Qed.

(** [LruUpdateIp] on an address that has an entry: the entry moves to the
    front and its counter is bumped through the stored pointer. *)
Lemma LruUpdateIp_hit {X : External} cache answer k w c ip v :
  recentlyIPCache cache = Some c →
  answer_address answer = Some ip →
  ip ≠ ""%string →
  lru.find ip (lru.items c) = Some v →
  LruUpdateIp cache answer k w =
    (with_recentlyIPCache
       (Some (lru.mk (lru.cap c) ((ip, bump v) :: lru.remove ip (lru.items c)))) cache,
     with_trace (trace w ++ [EvLruUpdateIp answer k]) w).
Proof.
  intros Hc Ha Hip Hf. unfold LruUpdateIp. run_M. rewrite Hc.
  pose proof (nonempty_length ip Hip) as Hlen.
  destruct answer as [n a|n a|n]; simpl in Ha;
    [injection Ha as ->|injection Ha as ->|discriminate];
    rewrite Hlen; unfold lru.Get; rewrite Hf; unfold lru.Store; simpl;
    by rewrite String.eqb_refl.
Qed.

(** [LruUpdateIp] on an address that has no entry: the clock is read and a
    new entry is added. *)
Lemma LruUpdateIp_miss {X : External} cache answer k w c ip :
  recentlyIPCache cache = Some c →
  answer_address answer = Some ip →
  ip ≠ ""%string →
  lru.find ip (lru.items c) = None →
  LruUpdateIp cache answer k w =
    (with_recentlyIPCache
       (Some (lru.Add ip {| ExpireTime := clock (ticks (outside w)) + setLruTimeout w;
                            ApplyCount := 1 |} c)) cache,
     tick (with_trace (trace w ++ [EvLruUpdateIp answer k]) w)).
Proof.
  intros Hc Ha Hip Hf. unfold LruUpdateIp. run_M. rewrite Hc.
  pose proof (nonempty_length ip Hip) as Hlen.
  destruct answer as [n a|n a|n]; simpl in Ha;
    [injection Ha as ->|injection Ha as ->|discriminate];
    rewrite Hlen; unfold lru.Get; by rewrite Hf.
Qed.

(** Without a cache, without an address or with the empty address,
    [LruUpdateIp] changes nothing. *)
Lemma LruUpdateIp_skip {X : External} cache answer k w :
  recentlyIPCache cache = None ∨ answer_address answer = None
    ∨ answer_address answer = Some ""%string →
  LruUpdateIp cache answer k w =
    (cache, with_trace (trace w ++ [EvLruUpdateIp answer k]) w).
Proof.
  intros H. unfold LruUpdateIp. run_M.
  destruct (recentlyIPCache cache) as [c|] eqn:Hc; [|done].
  destruct H as [H|[H|H]]; [done| |];
    destruct answer as [n a|n a|n]; simpl in H; try discriminate; try done;
    by injection H as ->.
Qed.

(** A new key is found after [Add], whatever had to be evicted. *)
Lemma Peek_Add_new (c : lru.Cache NftableIPCache) ip v :
  (0 < lru.cap c)%nat →
  lru.find ip (lru.items c) = None →
  lru.Peek ip (lru.Add ip v c) = Some v.
Proof.
  intros Hcap Hf. unfold lru.Peek, lru.Add. rewrite Hf.
  destruct c as [n l]; simpl in *.
  destruct (n <? S (length l))%nat eqn:E; simpl.
  - destruct l as [|x l]; [apply Nat.ltb_lt in E; simpl in E; lia|].
    apply find_removelast_head.
  - by rewrite String.eqb_refl.
Qed.

(** Repeated updates of an address that has an entry. *)
Lemma LruUpdateIp_seq_hit {X : External} ks : ∀ cache answer w ip e,
  answer_address answer = Some ip →
  ip ≠ ""%string →
  recency_entry ip cache = Some e →
  int_min ≤ ApplyCount e →
  ApplyCount e + Z.of_nat (length ks) ≤ int_max →
  recency_entry ip (LruUpdateIp_seq cache answer ks w).1 =
    Some {| ExpireTime := ExpireTime e;
            ApplyCount := ApplyCount e + Z.of_nat (length ks) |}.
Proof.
  induction ks as [|k ks IH]; intros cache answer w ip e Ha Hip He Hlo Hhi.
  - simpl. rewrite He, Z.add_0_r. by destruct e.
  - simpl. unfold bind.
    unfold recency_entry in He.
    destruct (recentlyIPCache cache) as [c|] eqn:Hc; [|done].
    rewrite (LruUpdateIp_hit _ _ _ _ c ip e) by done.
    simpl length in Hhi.
    assert (ApplyCount (bump e) = ApplyCount e + 1) as Hb.
    { simpl. rewrite int_add_small; lia. }
    rewrite (IH _ answer _ ip (bump e)); try done; try lia.
    + rewrite Hb. simpl. do 2 f_equal. lia.
    + unfold recency_entry, lru.Peek. simpl. by rewrite String.eqb_refl.
Qed.

(** C3.  On a connection that has a recency cache, and for a record with a
    non-empty address: [LruUpdateIp] on an address that has an entry adds
    exactly one to its attempt counter (short of the largest [int]),
    whatever the [rulesCounter] argument, and keeps its expiry time; on an
    address without entry it inserts the entry that expires at the clock
    reading plus [setLruTimeout] and counts one attempt; and after [n >= 1]
    calls in a row for an address that had no entry the counter is [n] and
    the expiry time is still the one of the first call. *)
Theorem LruUpdateIp_counts {X : External} (cache : NftablesCache) (answer : RR)
    (ip : string) (c : lru.Cache NftableIPCache) (w : World) :
  answer_address answer = Some ip →
  ip ≠ ""%string →
  recentlyIPCache cache = Some c →
  (0 < lru.cap c)%nat →
  (∀ e k, recency_entry ip cache = Some e →
          int_min ≤ ApplyCount e < int_max →
          recency_entry ip (LruUpdateIp cache answer k w).1 =
            Some {| ExpireTime := ExpireTime e; ApplyCount := ApplyCount e + 1 |})
  ∧ (∀ k, recency_entry ip cache = None →
          recency_entry ip (LruUpdateIp cache answer k w).1 =
            Some {| ExpireTime := clock (ticks (outside w)) + setLruTimeout w;
                    ApplyCount := 1 |})
  ∧ (∀ ks, recency_entry ip cache = None →
           ks ≠ [] →
           Z.of_nat (length ks) ≤ int_max →
           recency_entry ip (LruUpdateIp_seq cache answer ks w).1 =
             Some {| ExpireTime := clock (ticks (outside w)) + setLruTimeout w;
                     ApplyCount := Z.of_nat (length ks) |}).
Proof.
  intros Ha Hip Hc Hcap.
  assert (∀ k, recency_entry ip cache = None →
      recency_entry ip (LruUpdateIp cache answer k w).1 =
        Some {| ExpireTime := clock (ticks (outside w)) + setLruTimeout w;
                ApplyCount := 1 |}) as Hmiss.
  { intros k He. unfold recency_entry in He. rewrite Hc in He.
    rewrite (LruUpdateIp_miss _ _ _ _ c ip) by done.
    unfold recency_entry. simpl. by apply Peek_Add_new. }
  split; [|split; [exact Hmiss|]].
  - intros e k He Hrange. unfold recency_entry in He. rewrite Hc in He.
    rewrite (LruUpdateIp_hit _ _ _ _ c ip e) by done.
    unfold recency_entry, lru.Peek. simpl. rewrite String.eqb_refl.
    unfold bump. rewrite int_add_small; [done|].
    unfold int_min, int_max in *. lia.
  - intros [|k ks] He Hne Hlen; [done|]. clear Hne.
    simpl LruUpdateIp_seq. unfold bind.
    specialize (Hmiss k He).
    destruct (LruUpdateIp cache answer k w) as [cache1 w1]. simpl in Hmiss.
    rewrite (LruUpdateIp_seq_hit ks cache1 answer w1 ip _ Ha Hip Hmiss); simpl.
    + do 2 f_equal. lia.
    + unfold int_min. lia.
    + simpl length in Hlen. lia.
Qed.

Lemma LruUpdateIp_counts_witness :
  let X := demo all_well in
  let c := lru.mk 2 [("10.0.0.1"%string, {| ExpireTime := 700; ApplyCount := 41 |})] in
  let cache := demo_cache 0 (Some c) in
  let w := demo_world all_well [] 100 in
  recency_entry "10.0.0.1" (LruUpdateIp cache (RR_A "a.example." "10.0.0.1") 0 w).1 =
    Some {| ExpireTime := 700; ApplyCount := 42 |}
  ∧ recency_entry "10.0.0.2"
      (LruUpdateIp_seq cache (RR_A "b.example." "10.0.0.2") [3; 0; 7] w).1 =
    Some {| ExpireTime := 5000; ApplyCount := 3 |}.
Proof.
  intros X c cache w. split.
  - refine (proj1 (LruUpdateIp_counts cache (RR_A "a.example." "10.0.0.1")
              "10.0.0.1" c w _ _ _ _) {| ExpireTime := 700; ApplyCount := 41 |} 0 _ _);
      try reflexivity; try done; simpl; unfold int_min, int_max; lia.
  - refine (proj2 (proj2 (LruUpdateIp_counts cache (RR_A "b.example." "10.0.0.2")
              "10.0.0.2" c w _ _ _ _)) [3; 0; 7] _ _ _);
      try reflexivity; try done; simpl; unfold int_max; lia.
Defined.

(** With [setLruMaxCount] set to zero, [NewCache] on an empty pool gives a
    connection without recency cache, and on that connection [LruUpdateIp]
    inserts nothing for an address that has no entry. *)
Lemma LruUpdateIp_without_cache :
  let X := demo all_well in
  let w0 := (SetSetLruMaxCount 0 (demo_world all_well [] 100)).2 in
  ∃ p cache w,
    NewCache w0 = (inr (p, cache), w)
    ∧ recency_entry "10.0.0.1" cache = None
    ∧ recency_entry "10.0.0.1"
        (LruUpdateIp cache (RR_A "a.example." "10.0.0.1") 1 w).1
      ≠ Some {| ExpireTime := clock (ticks (outside w)) + setLruTimeout w;
                ApplyCount := 1 |}.
Proof.
  intros X w0. eexists _, _, _.
  split; [vm_compute; reflexivity|].
  split; [reflexivity | discriminate].
Qed.

(** *** [gc] *)

(** The loop stops on a cache whose oldest entry, if any, has not expired. *)
Lemma gc_stop now (c : lru.Cache NftableIPCache) :
  (∀ kv, lru.GetOldest c = Some kv → ¬ expired now kv) →
  ∃ kept evicted,
    lru.items c = kept ++ evicted
    ∧ Forall (expired now) evicted
    ∧ (∀ kv, last kept = Some kv → ¬ expired now kv)
    ∧ c = lru.mk (lru.cap c) kept.
Proof.
  intros H. exists (lru.items c), []. rewrite app_nil_r.
  repeat split; [constructor | exact H | by destruct c].
Qed.

(** What the loop of [gc] leaves: the eviction list without its longest
    run of expired entries at the old end. *)
Lemma gc_loop_spec now (c : lru.Cache NftableIPCache) :
  ∃ kept evicted,
    lru.items c = kept ++ evicted
    ∧ Forall (expired now) evicted
    ∧ (∀ kv, last kept = Some kv → ¬ expired now kv)
    ∧ gc_loop now c = lru.mk (lru.cap c) kept.
Proof.
  funelim (gc_loop now c);
    try match goal with Hc : _ = gc_loop _ _ |- _ => clear Hc end.
  - (* the cache is empty *)
    apply gc_stop. intros kv Hkv.
    apply negb_false_iff, Nat.eqb_eq, nil_length_inv in Heq.
    unfold lru.GetOldest in Hkv. by rewrite Heq in Hkv.
  - (* an oldest entry *)
    match goal with Ho : lru.GetOldest c = Some _ |- _ => rename Ho into Hold' end.
    destruct (now <? ExpireTime value) eqn:E.
    + apply gc_stop. intros kv Hkv. rewrite Hold' in Hkv. injection Hkv as <-.
      unfold expired. simpl. apply Z.ltb_lt in E. lia.
    + match goal with IH : ∃ _ _, _ |- _ =>
        destruct IH as (kept & evicted & Hitems & Hev & Hlast & Hres) end.
      destruct (proj1 (last_Some _ _) Hold') as [l' Hl'].
      simpl in Hitems. rewrite Hl', removelast_last in Hitems.
      exists kept, (evicted ++ [(s, value)]).
      repeat split; [| |done|by rewrite Hres].
      * by rewrite Hl', Hitems, app_assoc.
      * apply Forall_app. split; [done|]. constructor; [|constructor].
        unfold expired. simpl. apply Z.ltb_ge in E. lia.
  - (* no oldest entry *)
    apply gc_stop. intros kv Hkv.
    match goal with Ho : lru.GetOldest c = None |- _ => by rewrite Ho in Hkv end.
Qed.

(** C9.  [gc] reads the clock once and removes from the old end of the
    eviction list the longest run of entries whose expiry time is not after
    that reading: every removed entry has expired, the entries that stay
    are the same, in the same order, and the oldest of them, if there is
    one, has not expired.  A connection without recency cache is left as it
    is. *)
Theorem gc_evicts_expired_tail {X : External} (cache : NftablesCache) (w : World) :
  let now := clock (ticks (outside w)) in
  match recentlyIPCache cache with
  | None => (gc cache w).1 = cache
  | Some c =>
      ∃ kept evicted,
        lru.items c = kept ++ evicted
        ∧ Forall (expired now) evicted
        ∧ (∀ kv, last kept = Some kv → ¬ expired now kv)
        ∧ (gc cache w).1 = with_recentlyIPCache (Some (lru.mk (lru.cap c) kept)) cache
  end.
Proof.
  intros now. subst now. unfold gc. run_M.
  destruct (recentlyIPCache cache) as [c|] eqn:Hc; [|done].
  destruct (gc_loop_spec (clock (ticks (outside w))) c)
    as (kept & evicted & H1 & H2 & H3 & H4).
  exists kept, evicted. repeat split; try done. simpl. by rewrite H4.
Qed.

Example gc_example :
  let X := demo all_well in
  let e t := {| ExpireTime := t; ApplyCount := 1 |} in
  let c := lru.mk 8 [("d"%string, e 10); ("c"%string, e 2000); ("b"%string, e 1000);
                     ("a"%string, e 999)] in
  let w := tick (demo_world all_well [] 100) in
  recentlyIPCache (gc (demo_cache 0 (Some c)) w).1 =
    Some (lru.mk 8 [("d"%string, e 10); ("c"%string, e 2000)]).
Proof. reflexivity. Qed.

(** ** The connection pool *)

Lemma scanned_scanned {X : External} (w : World) n1 e1 l1 n2 e2 l2 :
  scanned (scanned w n1 e1 l1) n2 e2 l2 = scanned w (n1 + n2) (e1 ++ e2) l2.
Proof.
  unfold scanned; simpl. f_equal; [|by rewrite app_assoc].
  f_equal. lia.
Qed.

(** The loop of [NewCache]: the entries [gone] at the front, each older
    than [cacheExpiredDuration] at its reading of the clock, are handed to
    goroutines that destroy them; the first entry that is not, if there is
    one, goes through [gc] and is returned, and the entries behind it stay
    in the list. *)
Lemma NewCache_loop_spec {X : External} (l : list (Ptr * NftablesCache)) :
  ∀ w : World, cacheList w = l →
  ∃ gone rest,
    l = gone ++ rest
    ∧ (∀ i pc, gone !! i = Some pc →
         cacheExpiredDuration w <
           clock (ticks (outside w) + i)%nat - CreateTimepoint pc.2)
    ∧ match rest with
      | [] =>
          NewCache_loop l w =
            (None, scanned w (length gone) (destroyed_in_goroutines gone) [])
      | (p, cache) :: rest' =>
          clock (ticks (outside w) + length gone)%nat - CreateTimepoint cache
            ≤ cacheExpiredDuration w
          ∧ let ws := scanned w (S (length gone)) (destroyed_in_goroutines gone) rest' in
            NewCache_loop l w = (Some (p, (gc cache ws).1), (gc cache ws).2)
      end.
Proof.
  induction l as [|[p cache] l IH]; intros w Hw.
  - exists [], []. split; [done|]. split; [by intros i pc [=]|].
    simpl. unfold ret, scanned. f_equal.
    destruct w as [[g t] pool np tr d1 d2 d3 d4 am]; simpl in *.
    by rewrite app_nil_r, Nat.add_0_r, Hw.
  - simpl NewCache_loop. run_M.
    destruct (cacheExpiredDuration w <?
              clock (ticks (outside w)) - CreateTimepoint cache) eqn:E.
    + set (w1 := scanned w 1 [EvGoDestroy p] l).
      destruct (IH w1 eq_refl) as (gone & rest & Hl & Hgone & Hrest).
      exists ((p, cache) :: gone), rest. split; [by rewrite Hl|]. split.
      * intros [|i] pc Hi; simpl in Hi.
        -- injection Hi as <-. simpl. rewrite Nat.add_0_r. by apply Z.ltb_lt.
        -- specialize (Hgone i pc Hi). simpl in Hgone.
           by replace (ticks (outside w) + S i)%nat
             with (ticks (outside w) + 1 + i)%nat by lia.
      * assert (∀ n evs k, scanned w1 n evs k =
                  scanned w (S n) (EvGoDestroy p :: evs) k) as Hs.
        { intros. unfold w1. by rewrite scanned_scanned. }
        replace (NewCache_loop l _) with (NewCache_loop l w1); cycle 1.
        { f_equal. unfold w1, scanned, with_trace, with_outside, with_cacheList.
          simpl. do 2 f_equal. lia. }
        destruct rest as [|[q cq] rest'].
        -- rewrite Hrest, Hs. done.
        -- destruct Hrest as [Hage Hrun]. simpl in Hage, Hrun. split.
           ++ simpl. by replace (ticks (outside w) + S (length gone))%nat
                with (ticks (outside w) + 1 + length gone)%nat by lia.
           ++ simpl. rewrite Hrun, Hs. done.
    + exists [], ((p, cache) :: l). split; [done|].
      split; [by intros i pc [=]|]. simpl. split.
      * rewrite Nat.add_0_r. by apply Z.ltb_ge.
      * assert (∀ ws ws', ws = ws' →
                  (let (a, w') := gc cache ws in (Some (p, a), w')) =
                  (Some (p, (gc cache ws').1), (gc cache ws').2)) as Hgc.
        { intros ws ? <-. by destruct (gc cache ws). }
        apply Hgc. unfold scanned, with_trace, with_outside, with_cacheList.
        simpl. rewrite app_nil_r. do 2 f_equal. lia.
Qed.

(** [gc] leaves the pool, the allocator and the settings alone, and adds
    one event to the trace. *)
Lemma gc_frame {X : External} (cache : NftablesCache) (w : World) :
  cacheList (gc cache w).2 = cacheList w
  ∧ next_ptr (gc cache w).2 = next_ptr w
  ∧ trace (gc cache w).2 = trace w ++ [EvGc].
Proof. unfold gc. run_M. by destruct (recentlyIPCache cache). Qed.

Lemma NewCache_open_frame {X : External} (w : World) :
  cacheList (NewCache_open w).2 = cacheList w
  ∧ trace (NewCache_open w).2 = trace w ++ [EvNew].
Proof.
  unfold NewCache_open, openSystemNFTConn. run_M.
  destruct (nft_New (engine (outside w))) as [[err|c] g]; simpl;
    split; reflexivity.
Qed.

(** C2.  [NewCache] splits the pool into the entries [gone] at its front
    and the [rest].  Every entry of [gone] was older than
    [cacheExpiredDuration] at the clock reading taken for it, and each is
    handed to a goroutine that destroys it.  If [rest] is not empty, its
    first entry was not older than [cacheExpiredDuration] at its reading; it
    goes through [gc] and is the connection returned, the entries behind it
    stay in the pool, and no connection is opened.  Only if [rest] is empty
    does [NewCache] open a connection. *)
Theorem NewCache_skips_expired {X : External} (w : World) :
  ∃ gone rest,
    cacheList w = gone ++ rest
    ∧ (∀ i pc, gone !! i = Some pc →
         cacheExpiredDuration w <
           clock (ticks (outside w) + i)%nat - CreateTimepoint pc.2)
    ∧ match rest with
      | (p, cache) :: rest' =>
          clock (ticks (outside w) + length gone)%nat - CreateTimepoint cache
            ≤ cacheExpiredDuration w
          ∧ (let ws := scanned w (S (length gone)) (destroyed_in_goroutines gone) rest' in
             NewCache w = (inr (p, (gc cache ws).1), (gc cache ws).2))
          ∧ cacheList (NewCache w).2 = rest'
          ∧ trace (NewCache w).2 = trace w ++ destroyed_in_goroutines gone ++ [EvGc]
      | [] =>
          (let ws := scanned w (length gone) (destroyed_in_goroutines gone) [] in
           NewCache w = NewCache_open ws)
          ∧ cacheList (NewCache w).2 = []
          ∧ trace (NewCache w).2 = trace w ++ destroyed_in_goroutines gone ++ [EvNew]
      end.
Proof.
  destruct (NewCache_loop_spec (cacheList w) w eq_refl)
    as (gone & rest & Hl & Hgone & Hrest).
  exists gone, rest. split; [done|]. split; [done|].
  unfold NewCache. run_M.
  destruct rest as [|[p cache] rest'].
  - rewrite Hrest.
    destruct (NewCache_open_frame
                (scanned w (length gone) (destroyed_in_goroutines gone) []))
      as [Hc Ht].
    split; [done|]. split; [done|]. rewrite Ht. simpl. by rewrite app_assoc.
  - destruct Hrest as [Hage Hrun]. rewrite Hrun. simpl.
    destruct (gc_frame cache
                (scanned w (S (length gone)) (destroyed_in_goroutines gone) rest'))
      as (Hc & _ & Ht).
    split; [done|]. split; [done|]. split; [done|].
    rewrite Ht. simpl. by rewrite app_assoc.
Qed.

Example NewCache_example :
  let X := demo all_well in
  let old := demo_cache (-400000) None in
  let young := demo_cache 0 None in
  let w := demo_world all_well [(1%nat, old); (2%nat, young); (3%nat, old)] 100 in
  (NewCache w).1 = inr (2%nat, young)
  ∧ cacheList (NewCache w).2 = [(3%nat, old)]
  ∧ trace (NewCache w).2 = [EvGoDestroy 1%nat; EvGc].
Proof. by vm_compute. Qed.

(** *** [CloseCache] *)

Lemma destroy_frame {X : External} (p : Ptr) (cache : NftablesCache) (w : World) :
  cacheList (destroy p cache w).2 = cacheList w
  ∧ next_ptr (destroy p cache w).2 = next_ptr w
  ∧ ∃ evs, trace (destroy p cache w).2 = trace w ++ EvDestroy p :: evs.
Proof.
  unfold destroy, cleanupSystemNFTConn. run_M.
  destruct (NetworkNamespace cache =? 0); run_M.
  - repeat split. by exists [].
  - destruct (netns_Close _ _) as [e g]; simpl. repeat split.
    by exists [EvNsClose (NetworkNamespace cache)]; rewrite <- app_assoc.
Qed.

(** [CloseCache], branch by branch. *)
Lemma CloseCache_run {X : External} (p : Ptr) (cache : NftablesCache) (w : World) :
  let err := (nft_Flush (NftableConnection cache) (engine (outside w))).1 in
  let cache' := match err with
                | Some _ => with_HasNftableConnectionError true cache
                | None => cache
                end in
  CloseCache p cache w =
    if HasNftableConnectionError cache' then destroy p cache' (flushed cache w)
    else if cacheExpiredDuration w <?
            clock (ticks (outside w)) - CreateTimepoint cache
         then destroy p cache' (tick (flushed cache w))
         else (None, with_cacheList (cacheList w ++ [(p, cache)])
                       (tick (flushed cache w))).
Proof.
  unfold CloseCache, flushed, tick. run_M.
  destruct (nft_Flush _ _) as [[e|] g]; simpl; [done|].
  destruct (HasNftableConnectionError cache); [done|]. simpl.
  by destruct (_ <? _).
Qed.

(** *** A pointer outside the pool stays outside *)

Lemma NewCache_open_result {X : External} (w : World) :
  cacheList (NewCache_open w).2 = cacheList w
  ∧ (next_ptr w ≤ next_ptr (NewCache_open w).2)%nat
  ∧ ∀ q c, (NewCache_open w).1 = inr (q, c) → q = next_ptr w.
Proof.
  unfold NewCache_open, openSystemNFTConn. run_M.
  destruct (nft_New (engine (outside w))) as [[err|c] g]; simpl.
  - repeat split; [lia|]. by intros q c' [=].
  - repeat split; [lia|]. by intros q c' [= <- _].
Qed.

Lemma NewCache_outside_pool {X : External} (p : Ptr) (w : World) :
  outside_pool p w →
  outside_pool p (NewCache w).2
  ∧ ∀ q c, (NewCache w).1 = inr (q, c) → q ≠ p.
Proof.
  intros [Hlt Hnot].
  destruct (NewCache_loop_spec (cacheList w) w eq_refl)
    as (gone & rest & Hl & _ & Hrest).
  rewrite Hl, fmap_app in Hnot. apply not_elem_of_app in Hnot as [_ Hnot].
  unfold NewCache. run_M.
  destruct rest as [|[q cq] rest'].
  - rewrite Hrest.
    destruct (NewCache_open_result
                (scanned w (length gone) (destroyed_in_goroutines gone) []))
      as (Hc & Hnp & Hq).
    simpl in Hnp, Hc. split.
    + split; [lia|]. rewrite Hc. apply not_elem_of_nil.
    + intros q c Hr. rewrite (Hq q c Hr). simpl. lia.
  - destruct Hrest as (_ & Hrun). simpl in Hrun. rewrite Hrun. simpl.
    rewrite fmap_cons in Hnot. apply not_elem_of_cons in Hnot as [Hpq Hnot].
    destruct (gc_frame cq
                (scanned w (S (length gone)) (destroyed_in_goroutines gone) rest'))
      as (Hc & Hn & _).
    split.
    + split; [by rewrite Hn|by rewrite Hc].
    + intros q' c' Hr. by injection Hr as <- _.
Qed.

Lemma CloseCache_frame {X : External} (q : Ptr) (cache : NftablesCache) (w : World) :
  next_ptr (CloseCache q cache w).2 = next_ptr w
  ∧ (cacheList (CloseCache q cache w).2 = cacheList w
     ∨ cacheList (CloseCache q cache w).2 = cacheList w ++ [(q, cache)]).
Proof.
  rewrite CloseCache_run. simpl.
  set (cache' := match _ with Some _ => _ | None => cache end).
  destruct (HasNftableConnectionError cache').
  - destruct (destroy_frame q cache' (flushed cache w)) as (Hc & Hn & _).
    rewrite Hc, Hn. by split; [|left].
  - destruct (_ <? _).
    + destruct (destroy_frame q cache' (tick (flushed cache w))) as (Hc & Hn & _).
      rewrite Hc, Hn. by split; [|left].
    + simpl. by split; [|right].
Qed.

Lemma CloseCache_outside_pool {X : External} (p q : Ptr) (cache : NftablesCache)
    (w : World) :
  q ≠ p → outside_pool p w → outside_pool p (CloseCache q cache w).2.
Proof.
  intros Hqp [Hlt Hnot].
  destruct (CloseCache_frame q cache w) as [Hn [Hc|Hc]];
    (split; [by rewrite Hn|]); rewrite Hc; [done|].
  rewrite fmap_app. apply not_elem_of_app. split; [done|].
  simpl. apply not_elem_of_cons. split; [done|apply not_elem_of_nil].
Qed.

Lemma ClearCache_loop_frame {X : External} (l : list (Ptr * NftablesCache)) :
  ∀ w : World, cacheList w = l →
    cacheList (ClearCache_loop l w).2 = []
    ∧ next_ptr (ClearCache_loop l w).2 = next_ptr w.
Proof.
  induction l as [|[p c] l IH]; intros w Hw; simpl; [done|].
  run_M. set (w1 := with_trace _ _).
  destruct (IH w1 eq_refl) as [Hc Hn]. split; [done|]. by rewrite Hn.
Qed.

Lemma ClearCache_outside_pool {X : External} (p : Ptr) (w : World) :
  outside_pool p w → outside_pool p (ClearCache w).2.
Proof.
  intros [Hlt _]. unfold ClearCache. run_M.
  destruct (ClearCache_loop_frame (cacheList w) w eq_refl) as [Hc Hn].
  split; [by rewrite Hn | rewrite Hc; apply not_elem_of_nil].
Qed.

(** No run of pool operations that does not release [p] again makes
    [NewCache] return [p]. *)
Lemma run_ops_never_returns {X : External} (p : Ptr) (ops : list PoolOp) :
  ∀ w : World,
    outside_pool p w →
    Forall (λ op, ¬ releases p op) ops →
    p ∉ (run_ops ops w).1.
Proof.
  induction ops as [|op ops IH]; intros w Hout Hops; [apply not_elem_of_nil|].
  apply Forall_cons in Hops as [Hop Hops].
  destruct op as [|q cache|]; simpl; unfold bind.
  - destruct (NewCache_outside_pool p w Hout) as [Hout' Hne].
    destruct (NewCache w) as [r w1]. simpl in *.
    specialize (IH w1 Hout' Hops).
    destruct (run_ops ops w1) as [ps w2]. simpl in *.
    destruct r as [err|[q c]]; [done|].
    apply not_elem_of_cons. split; [|done].
    intros ->. by apply (Hne q c).
  - pose proof (CloseCache_outside_pool p q cache w Hop Hout) as Hout'.
    destruct (CloseCache q cache w) as [r w1]. by apply IH.
  - pose proof (ClearCache_outside_pool p w Hout) as Hout'.
    destruct (ClearCache w) as [r w1]. by apply IH.
Qed.

(** C5.  [CloseCache] starts with the [Flush] of the connection, and a
    failed flush makes the connection unhealthy.  An unhealthy connection,
    and a connection older than [cacheExpiredDuration], is destroyed and not
    put into the pool, and, as long as nobody releases it again, no later
    [NewCache] returns its pointer.  Any other connection is appended at the
    back of the pool.  (The connection released is a checked-out one:
    allocated, and not in the pool.) *)
Theorem CloseCache_discards_or_requeues {X : External} (p : Ptr)
    (cache : NftablesCache) (w : World) :
  outside_pool p w →
  let conn := NftableConnection cache in
  let unhealthy := is_error (nft_Flush conn (engine (outside w))).1
                   || HasNftableConnectionError cache in
  let too_old := cacheExpiredDuration w <?
                 clock (ticks (outside w)) - CreateTimepoint cache in
  let w' := (CloseCache p cache w).2 in
  (∃ evs, trace w' = trace w ++ EvFlush conn :: evs)
  ∧ (is_error (nft_Flush conn (engine (outside w))).1 = true →
     CloseCache p cache w =
       destroy p (with_HasNftableConnectionError true cache) (flushed cache w))
  ∧ (if unhealthy || too_old
     then cacheList w' = cacheList w
          ∧ EvDestroy p ∈ trace w'
          ∧ ∀ ops, Forall (λ op, ¬ releases p op) ops → p ∉ (run_ops ops w').1
     else cacheList w' = cacheList w ++ [(p, cache)]).
Proof.
  intros Hout conn unhealthy too_old w'.
  assert (∀ c0 w0, cacheList w0 = cacheList w → next_ptr w0 = next_ptr w →
            (∃ evs, trace w0 = trace w ++ EvFlush conn :: evs) →
            let w1 := (destroy p c0 w0).2 in
            (∃ evs, trace w1 = trace w ++ EvFlush conn :: evs)
            ∧ cacheList w1 = cacheList w
            ∧ EvDestroy p ∈ trace w1
            ∧ ∀ ops, Forall (λ op, ¬ releases p op) ops → p ∉ (run_ops ops w1).1)
    as Hdestroy.
  { intros c0 w0 Hc Hn [evs Ht] w1.
    destruct (destroy_frame p c0 w0) as (Hc1 & Hn1 & evs1 & Ht1).
    fold w1 in Hc1, Hn1, Ht1.
    split; [|split; [by rewrite Hc1|split]].
    - exists (evs ++ EvDestroy p :: evs1).
      rewrite Ht1, Ht, <- app_assoc. done.
    - rewrite Ht1. apply elem_of_app. right. apply elem_of_cons. by left.
    - intros ops Hops. apply run_ops_never_returns; [|done].
      destruct Hout as [Hlt Hnot]. split; [by rewrite Hn1, Hn|by rewrite Hc1, Hc]. }
  unfold w'. rewrite CloseCache_run. simpl.
  subst unhealthy too_old conn.
  destruct (nft_Flush (NftableConnection cache) (engine (outside w))) as [[e|] g] eqn:Hf;
    simpl.
  - destruct (Hdestroy (with_HasNftableConnectionError true cache) (flushed cache w))
      as (H1 & H2 & H3 & H4); try done.
    by exists [].
  - split; [|split; [done|]]; destruct (HasNftableConnectionError cache) eqn:Hh; simpl.
    + destruct (Hdestroy cache (flushed cache w)) as (H1 & H2 & H3 & H4); try done.
      by exists [].
    + destruct (_ <? _) eqn:E.
      * destruct (Hdestroy cache (tick (flushed cache w))) as (H1 & H2 & H3 & H4);
          try done.
        by exists [].
      * simpl. by exists [].
    + destruct (Hdestroy cache (flushed cache w)) as (H1 & H2 & H3 & H4); try done.
      by exists [].
    + destruct (_ <? _) eqn:E.
      * destruct (Hdestroy cache (tick (flushed cache w))) as (H1 & H2 & H3 & H4);
          try done.
        by exists [].
      * done.
Qed.

Lemma CloseCache_discards_or_requeues_witness :
  let X := demo flush_broken in
  let w := demo_world flush_broken [(4%nat, demo_cache 0 None)] 100 in
  let w' := (CloseCache 3%nat (demo_cache 0 None) w).2 in
  cacheList w' = [(4%nat, demo_cache 0 None)]
  ∧ 3%nat ∉ (run_ops [OpNewCache; OpNewCache; OpCloseCache 4%nat (demo_cache 0 None);
                      OpNewCache] w').1.
Proof.
  intros X w w'.
  assert (outside_pool 3%nat w) as Hout.
  { split; [simpl; lia|]. simpl. apply not_elem_of_cons.
    split; [lia|apply not_elem_of_nil]. }
  destruct (CloseCache_discards_or_requeues (X := X) 3%nat (demo_cache 0 None) w Hout)
    as (_ & _ & Hc & _ & Hnever).
  split; [exact Hc|].
  apply Hnever. repeat constructor; simpl; lia.
Defined.

(** ** Failure to open a connection *)

(** [ServeWorker] stops where [NewCache] fails. *)
Lemma ServeWorker_NewCache_error {X : External} (m : NftablesHandler) (r : Msg)
    (w : World) (err : Error) :
  (NewCache w).1 = inl err →
  ServeWorker m r w = (Some err, (NewCache w).2).
Proof.
  intros H. unfold ServeWorker, bind.
  destruct (NewCache w) as [res w1]. simpl in H. by subst res.
Qed.

(** C6.  With an empty pool and an engine that refuses the connection,
    [NewCache] returns the error of the engine, and [ServeWorker] returns
    that error at once: the world it leaves is the one [NewCache] has left,
    in which the call of [nftables.New] is the only new event, so no record
    has been looked at, no applier called, nothing flushed. *)
Theorem NewCache_failure_aborts {X : External} (m : NftablesHandler) (r : Msg)
    (w : World) (err : Error) (g : Engine) :
  cacheList w = [] →
  nft_New (engine (outside w)) = (inl err, g) →
  let w1 := with_outside {| engine := g; ticks := ticks (outside w) |}
              (with_trace (trace w ++ [EvNew]) w) in
  NewCache w = (inl err, w1) ∧ ServeWorker m r w = (Some err, w1).
Proof.
  intros Hpool Hnew w1.
  assert (NewCache w = (inl err, w1)) as HN.
  { unfold NewCache, NewCache_open, openSystemNFTConn. run_M.
    rewrite Hpool. simpl. run_M. by rewrite Hnew. }
  split; [done|].
  rewrite (ServeWorker_NewCache_error m r w err); by rewrite HN.
Qed.

Lemma NewCache_failure_aborts_witness :
  let X := demo new_broken in
  let w := demo_world new_broken [] 100 in
  let m := {| Rules := {[ TableFamilyIPv4 :=
                {| RuleAddElement := [{| TableName := "filter"; SetName := "dns" |}] |} ]} |} in
  (ServeWorker m {| Answer := [RR_A "example.org." "1.2.3.4"] |} w).1
    = Some "nftables.New failed"%string
  ∧ trace (ServeWorker m {| Answer := [RR_A "example.org." "1.2.3.4"] |} w).2 = [EvNew].
Proof.
  intros X w m.
  destruct (NewCache_failure_aborts (X := X) m
              {| Answer := [RR_A "example.org." "1.2.3.4"] |} w
              "nftables.New failed"%string 1%nat eq_refl eq_refl) as [_ H].
  split; [exact (f_equal (λ x, x.1) H) | exact (f_equal (λ x, trace x.2) H)].
Defined.

(** In synchronous mode [ServeDNS] drops what [ServeWorker] returns: the
    response is written and the code of the next plugin returned without
    error. *)
Example ServeDNS_sync_drops_worker_error :
  let X := demo new_broken in
  let m := {| Rules := ∅ |} in
  (ServeDNS m {| Answer := [RR_A "example.org." "1.2.3.4"] |}
     (demo_world new_broken [] 100)).1 = (RcodeSuccess, None).
Proof. reflexivity. Qed.

(** ** The families of a record *)

(** C7, as the code has it.  For an address record the switch first asks
    [LruIgnoreIp]; if the answer is no, [tableFamilies] is ipv4, inet,
    bridge for an A record and ipv6, inet, bridge for an AAAA record, and
    the record counter is incremented; if the answer is yes,
    [tableFamilies] stays nil.  For any other record [tableFamilies] stays
    nil and the loop body does nothing at all: connection and world are
    unchanged, so nothing is read from the recency cache, nothing is
    written to it, and no applier is called. *)
Theorem resolve_families_by_kind {X : External} (m : NftablesHandler)
    (cache : NftablesCache) (answer : RR) (w : World) :
  let ignore := (LruIgnoreIp cache answer w).1.1 in
  let cache' := (LruIgnoreIp cache answer w).1.2 in
  let w' := (LruIgnoreIp cache answer w).2 in
  let counted := with_trace (trace w' ++ [EvRecordCountInc]) w' in
  match answer with
  | RR_A _ _ =>
      resolve_families cache answer w =
        if ignore then (None, cache', w')
        else (Some [TableFamilyIPv4; TableFamilyINet; TableFamilyBridge], cache', counted)
  | RR_AAAA _ _ =>
      resolve_families cache answer w =
        if ignore then (None, cache', w')
        else (Some [TableFamilyIPv6; TableFamilyINet; TableFamilyBridge], cache', counted)
  | RR_Other _ =>
      resolve_families cache answer w = (None, cache, w)
      ∧ serve_answer m cache answer w = (cache, w)
  end.
Proof.
  destruct answer as [n a|n a|n]; simpl; unfold serve_answer, resolve_families, bind.
  - destruct (LruIgnoreIp cache (RR_A n a) w) as [[[] c1] w1]; by run_M.
  - destruct (LruIgnoreIp cache (RR_AAAA n a) w) as [[[] c1] w1]; by run_M.
  - done.
Qed.

(** An A record whose address has used up its retries: [tableFamilies]
    stays nil. *)
Lemma resolve_families_ignored :
  let X := demo all_well in
  let c := lru.mk 4 [("1.2.3.4"%string, {| ExpireTime := 9000; ApplyCount := 3 |})] in
  (resolve_families (demo_cache 0 (Some c)) (RR_A "example.org." "1.2.3.4")
     (demo_world all_well [] 3)).1.1
  ≠ Some [TableFamilyIPv4; TableFamilyINet; TableFamilyBridge].
Proof. discriminate. Qed.

(** ** The metadata cache *)

Lemma with_tables_same (cache : NftablesCache) : with_tables (tables cache) cache = cache.
Proof. by destruct cache. Qed.

(** A table that is in the cache is returned from it: no call to the
    engine, nothing changes. *)
Lemma MutableNftablesTable_hit {X : External} (cache : NftablesCache)
    (family : TableFamily) (tableName : string) (w : World)
    (ts : gmap string NftableCache) (tc : NftableCache) :
  tables cache !! family = Some ts →
  ts !! tableName = Some tc →
  MutableNftablesTable cache family tableName w = (tc, cache, w).
Proof.
  intros Hts Htc. unfold MutableNftablesTable. rewrite Hts.
  assert ((size ts =? 0)%nat = false) as ->.
  { apply Nat.eqb_neq. intros Hs%map_size_empty_iff. subst ts.
    by rewrite lookup_empty in Htc. }
  run_M. rewrite Htc. by rewrite insert_id, with_tables_same.
Qed.

(** What a call leaves: the table is in the cache, it is the handle
    returned, and the engine has been asked at most once to list the tables
    of the family and at most once to add the table. *)
Lemma MutableNftablesTable_post {X : External} (cache : NftablesCache)
    (family : TableFamily) (tableName : string) (w : World) :
  let r := MutableNftablesTable cache family tableName w in
  let conn := NftableConnection cache in
  (∃ ts, tables r.1.2 !! family = Some ts ∧ ts !! tableName = Some r.1.1)
  ∧ ∃ evs, trace r.2 = trace w ++ evs
           ∧ evs `sublist_of` [EvListTablesOfFamily conn family;
                               EvAddTable conn {| Family := family;
                                                  Name := tableName |}].
Proof.
  unfold MutableNftablesTable.
  set (ts0 := match tables cache !! family with Some ts => ts | None => ∅ end).
  assert (∀ (ts : gmap string NftableCache) (tc : NftableCache)
            (m : gmap TableFamily (gmap string NftableCache)),
            ts !! tableName = Some tc →
            ∃ ts', <[family := ts]> m !! family = Some ts' ∧ ts' !! tableName = Some tc)
    as Hfound.
  { intros ts tc m Htc. exists ts. by rewrite lookup_insert_eq. }
  assert (∀ (ts : gmap string NftableCache) (tc : NftableCache)
            (m : gmap TableFamily (gmap string NftableCache)),
            ∃ ts', <[family := <[tableName := tc]> ts]> m !! family = Some ts'
                   ∧ ts' !! tableName = Some tc)
    as Hadded.
  { intros ts tc m. eexists. rewrite lookup_insert_eq. split; [done|].
    by rewrite lookup_insert_eq. }
  destruct (size ts0 =? 0)%nat; run_M.
  - destruct (nft_ListTablesOfFamily _ _ _) as [[ts|] g]; simpl;
      (destruct (_ !! tableName) as [tc|] eqn:Htc; simpl;
       [|destruct (nft_AddTable _ _ _) as [t' g']; simpl]);
      (split; [by auto|]); eexists;
      (split; [first [done | by rewrite <- app_assoc]|]);
      eauto using sublist_nil_l, sublist_cons, sublist_skip.
  - destruct (ts0 !! tableName) as [tc|] eqn:Htc; simpl;
      [|destruct (nft_AddTable _ _ _) as [t' g']; simpl];
      (split; [by auto|]).
    + exists []. split; [by rewrite app_nil_r|]. apply sublist_nil_l.
    + eexists. split; [done|].
      eauto using sublist_nil_l, sublist_cons, sublist_skip.
Qed.

(** C8.  Two calls of [MutableNftablesTable] in a row for the same family
    and name.  After the first call the metadata cache of the connection
    holds, under the family and the name, the handle the call has returned.
    The second call returns that cached handle, the one the first has
    returned, and leaves the connection and the world, the trace of the
    calls to the engine included, exactly as the first has left them: it
    makes no call to the engine.  Together the two calls make at most one
    listing call and at most one add-table call. *)
Theorem MutableNftablesTable_twice {X : External} (cache : NftablesCache)
    (family : TableFamily) (tableName : string) (w : World) :
  let r1 := MutableNftablesTable cache family tableName w in
  let r2 := MutableNftablesTable r1.1.2 family tableName r1.2 in
  let conn := NftableConnection cache in
  (∃ ts, tables r1.1.2 !! family = Some ts
         ∧ ts !! tableName = Some r1.1.1
         ∧ ts !! tableName = Some r2.1.1
         ∧ tables r2.1.2 !! family = Some ts)
  ∧ r2 = r1
  ∧ trace r2.2 = trace r1.2
  ∧ ∃ evs, trace r2.2 = trace w ++ evs
           ∧ evs `sublist_of` [EvListTablesOfFamily conn family;
                               EvAddTable conn {| Family := family;
                                                  Name := tableName |}].
Proof.
  intros r1 r2 conn.
  destruct (MutableNftablesTable_post cache family tableName w)
    as [(ts & Hts & Htc) Hevs].
  fold r1 in Hts, Htc, Hevs.
  assert (r2 = r1) as Heq.
  { unfold r2. rewrite (MutableNftablesTable_hit _ _ _ _ ts r1.1.1 Hts Htc).
    by destruct r1 as [[tc1 c1] w1]. }
  split; [|split; [done|split; by rewrite Heq]].
  exists ts. by rewrite Heq.
Qed.

Example MutableNftablesTable_example :
  let X := demo all_well in
  let w := demo_world all_well [] 100 in
  let r1 := MutableNftablesTable (demo_cache 0 None) TableFamilyINet "filter" w in
  trace r1.2 = [EvListTablesOfFamily 0%nat TableFamilyINet;
                EvAddTable 0%nat {| Family := TableFamilyINet; Name := "filter" |}]
  ∧ trace (MutableNftablesTable r1.1.2 TableFamilyINet "filter" r1.2).2 = trace r1.2.
Proof. by vm_compute. Qed.

(** ** The dispatcher and the recency cache *)

Lemma find_move_front {V : Type} (ip ip' : string) (v : V) (l : list (string * V)) :
  lru.find ip l = Some v →
  lru.find ip' ((ip, v) :: lru.remove ip l) = lru.find ip' l.
Proof.
  intros Hf. simpl. destruct (String.eqb ip' ip) eqn:E.
  - apply String.eqb_eq in E as ->. done.
  - apply find_remove_ne. intros ->. by rewrite String.eqb_refl in E.
Qed.

(** *** The invariant of the recency cache *)

Lemma find_app_None {V : Type} (k : string) (l1 l2 : list (string * V)) :
  lru.find k (l1 ++ l2) = None → lru.find k l1 = None.
Proof.
  induction l1 as [|[k' v] l1 IH]; simpl; [done|].
  by destruct (String.eqb k k').
Qed.

Lemma lru_New_ok (n : Z) (c : lru.Cache NftableIPCache) : lru.New n = Some c → lru_ok c.
Proof.
  unfold lru.New. destruct (n <=? 0) eqn:E; [done|].
  intros [= <-]. split; [simpl; apply Z.leb_gt in E; lia|done].
Qed.

Lemma LruIgnoreIp_keeps_ok {X : External} (cache : NftablesCache) (answer : RR) (w : World) :
  recency_ok cache → recency_ok (LruIgnoreIp cache answer w).1.2.
Proof.
  intros Hok.
  destruct (recentlyIPCache cache) as [c|] eqn:Hc;
    [|by rewrite LruIgnoreIp_skip by auto].
  destruct (answer_address answer) as [a|] eqn:Ha;
    [|by rewrite LruIgnoreIp_skip by auto].
  destruct (decide (a = ""%string)) as [->|Hne];
    [by rewrite LruIgnoreIp_skip by auto|].
  rewrite (LruIgnoreIp_run _ _ _ c a) by done. simpl.
  destruct (Hok c Hc) as [Hcap Hnone].
  intros c' [= <-]. unfold lru.Get.
  destruct (lru.find a (lru.items c)) as [v|] eqn:Hf; [|done].
  split; [done|]. simpl lru.items. by rewrite (find_move_front a "" v).
Qed.

Lemma LruUpdateIp_keeps_ok {X : External} (cache : NftablesCache) (answer : RR) (k : Z)
    (w : World) :
  recency_ok cache → recency_ok (LruUpdateIp cache answer k w).1.
Proof.
  intros Hok.
  destruct (recentlyIPCache cache) as [c|] eqn:Hc;
    [|by rewrite LruUpdateIp_skip by auto].
  destruct (answer_address answer) as [a|] eqn:Ha;
    [|by rewrite LruUpdateIp_skip by auto].
  destruct (decide (a = ""%string)) as [->|Hne];
    [by rewrite LruUpdateIp_skip by auto|].
  destruct (Hok c Hc) as [Hcap Hnone].
  assert (∀ (x : NftableIPCache) l,
            lru.find "" l = None → lru.find "" ((a, x) :: l) = None) as Hcons.
  { intros x l Hl. destruct a; [done|]. by simpl. }
  destruct (lru.find a (lru.items c)) as [v|] eqn:Hf.
  - rewrite (LruUpdateIp_hit _ _ _ _ c a v) by done. simpl.
    intros c' [= <-]. split; [done|]. simpl lru.items.
    apply Hcons. by rewrite find_remove_ne.
  - rewrite (LruUpdateIp_miss _ _ _ _ c a) by done. simpl.
    intros c' [= <-]. unfold lru.Add. rewrite Hf.
    destruct (_ <? _)%nat; (split; [done|]); cbn [lru.items].
    + apply find_removelast_None. by apply Hcons.
    + by apply Hcons.
Qed.

Lemma gc_keeps_ok {X : External} (cache : NftablesCache) (w : World) :
  recency_ok cache → recency_ok (gc cache w).1.
Proof.
  intros Hok. unfold gc. run_M.
  destruct (recentlyIPCache cache) as [c|] eqn:Hc; [|done]. simpl.
  destruct (Hok c Hc) as [Hcap Hnone].
  destruct (gc_loop_spec (clock (ticks (outside w))) c)
    as (kept & evicted & Hitems & _ & _ & Hres).
  intros c' [= <-]. rewrite Hres. split; [done|]. simpl.
  rewrite Hitems in Hnone. by apply find_app_None in Hnone.
Qed.

Lemma NewCache_open_ok {X : External} (w : World) (p : Ptr) (cache : NftablesCache) :
  (NewCache_open w).1 = inr (p, cache) → recency_ok cache.
Proof.
  unfold NewCache_open, openSystemNFTConn. run_M.
  destruct (nft_New (engine (outside w))) as [[err|c] g]; simpl; [done|].
  intros [= _ <-] c' Hc'. simpl in Hc'. by apply lru_New_ok in Hc'.
Qed.

(** [LruIgnoreIp] changes the recency order only: every entry is as before. *)
Lemma LruIgnoreIp_entries {X : External} (cache : NftablesCache) (answer : RR) (w : World) :
  trace (LruIgnoreIp cache answer w).2 = trace w ++ [EvLruIgnoreIp answer]
  ∧ ∀ ip, recency_entry ip (LruIgnoreIp cache answer w).1.2 = recency_entry ip cache.
Proof.
  destruct (recentlyIPCache cache) as [c|] eqn:Hc;
    [|by rewrite LruIgnoreIp_skip by auto].
  destruct (answer_address answer) as [a|] eqn:Ha;
    [|by rewrite LruIgnoreIp_skip by auto].
  destruct (decide (a = ""%string)) as [->|Hne];
    [by rewrite LruIgnoreIp_skip by auto|].
  rewrite (LruIgnoreIp_run _ _ _ c a) by done. simpl. split; [done|].
  intros ip. unfold recency_entry, lru.Peek, lru.Get. rewrite Hc. simpl.
  destruct (lru.find a (lru.items c)) as [v|] eqn:Hf; [|done].
  simpl. by apply find_move_front.
Qed.

Lemma LruUpdateIp_trace {X : External} (cache : NftablesCache) (answer : RR) (k : Z)
    (w : World) :
  trace (LruUpdateIp cache answer k w).2 = trace w ++ [EvLruUpdateIp answer k].
Proof.
  destruct (recentlyIPCache cache) as [c|] eqn:Hc;
    [|by rewrite LruUpdateIp_skip by auto].
  destruct (answer_address answer) as [a|] eqn:Ha;
    [|by rewrite LruUpdateIp_skip by auto].
  destruct (decide (a = ""%string)) as [->|Hne];
    [by rewrite LruUpdateIp_skip by auto|].
  destruct (lru.find a (lru.items c)) as [v|] eqn:Hf.
  - by rewrite (LruUpdateIp_hit _ _ _ _ c a v).
  - by rewrite (LruUpdateIp_miss _ _ _ _ c a).
Qed.

(** The loop over the rules of one family. *)
Lemma serve_rules_spec {X : External} (answer : RR) (family : TableFamily)
    (rules : list NftablesSetAddElement) :
  applier_keeps_recency →
  ∀ (h : bool) (k : Z) (cache : NftablesCache) (w : World),
  ∃ calls,
    let r := serve_rules answer family rules (h, k, cache) w in
    trace r.2 = trace w ++ calls
    ∧ Forall (is_rule_call answer) calls
    ∧ r.1.1.1 = h || existsb rule_failed calls
    ∧ r.1.1.2 = count_applied k calls
    ∧ recentlyIPCache r.1.2 = recentlyIPCache cache.
Proof.
  intros Hframe. induction rules as [|rule rules IH]; intros h k cache w.
  - exists []. simpl. rewrite app_nil_r, orb_false_r. by repeat split.
  - simpl. unfold call_rule. run_M.
    pose proof (Hframe rule cache answer family (outside w)) as Hrec.
    destruct (rule_ServeDNS rule cache answer family (outside w))
      as [[[err ignored] cache1] o]. simpl in Hrec. simpl.
    set (ev := EvRuleServeDNS rule answer family err ignored).
    set (w1 := with_trace _ _).
    assert (is_rule_call answer ev) as Hev by (by eexists _, _, _, _).
    destruct err as [e|]; [|destruct ignored]; simpl.
    + destruct (IH true k cache1 w1) as (calls & Ht & Hc & Hh & Hk & Hr).
      exists (ev :: calls). simpl in *. rewrite Ht, Hh, Hk, Hr, Hrec.
      rewrite orb_true_r. repeat split; [by rewrite <- app_assoc|by constructor].
    + destruct (IH h k cache1 w1) as (calls & Ht & Hc & Hh & Hk & Hr).
      exists (ev :: calls). simpl in *. rewrite Ht, Hh, Hk, Hr, Hrec.
      repeat split; [by rewrite <- app_assoc|by constructor].
    + destruct (IH h (int_add k 1) cache1 w1) as (calls & Ht & Hc & Hh & Hk & Hr).
      exists (ev :: calls). simpl in *. rewrite Ht, Hh, Hk, Hr, Hrec.
      repeat split; [by rewrite <- app_assoc|by constructor].
Qed.

(** The loop over the families. *)
Lemma serve_families_spec {X : External} (m : NftablesHandler) (answer : RR)
    (families : list TableFamily) :
  applier_keeps_recency →
  ∀ (h : bool) (k : Z) (cache : NftablesCache) (w : World),
  ∃ calls,
    let r := serve_families m answer families (h, k, cache) w in
    trace r.2 = trace w ++ calls
    ∧ Forall (is_rule_call answer) calls
    ∧ r.1.1.1 = h || existsb rule_failed calls
    ∧ r.1.1.2 = count_applied k calls
    ∧ recentlyIPCache r.1.2 = recentlyIPCache cache.
Proof.
  intros Hframe. induction families as [|family families IH]; intros h k cache w.
  - exists []. simpl. rewrite app_nil_r, orb_false_r. by repeat split.
  - simpl. destruct (Rules m !! family) as [ruleSet|]; [|apply IH].
    unfold bind.
    destruct (serve_rules_spec answer family (RuleAddElement ruleSet) Hframe h k cache w)
      as (c1 & Ht1 & Hc1 & Hh1 & Hk1 & Hr1).
    destruct (serve_rules answer family (RuleAddElement ruleSet) (h, k, cache) w)
      as [[[h1 k1] cache1] w1]. simpl in *.
    destruct (IH h1 k1 cache1 w1) as (c2 & Ht2 & Hc2 & Hh2 & Hk2 & Hr2).
    exists (c1 ++ c2). simpl in *.
    rewrite Ht2, Hh2, Hk2, Hr2, Ht1, Hr1, Hh1, Hk1.
    repeat split.
    + by rewrite app_assoc.
    + by apply Forall_app.
    + by rewrite existsb_app, orb_assoc.
    + unfold count_applied. by rewrite foldl_app.
Qed.

(** C1.  For an address record that [LruIgnoreIp] lets through, let [calls]
    be the applier calls the loop body makes for it, in order, each with
    what it returned ([applier_keeps_recency] is assumed of the appliers).
    If one of the calls returned an error, [LruUpdateIp] is not called: the
    recency cache of the connection is the one the look-up of
    [LruIgnoreIp] has left, and every recency entry is what it was before
    the record.  If none returned an error, the events of the record end
    with exactly one call of [LruUpdateIp], for this record and with the
    number of applied rules as argument, be that number zero or not. *)
Theorem serve_answer_recency {X : External} (m : NftablesHandler)
    (cache : NftablesCache) (answer : RR) (w : World) :
  applier_keeps_recency →
  is_address_record answer = true →
  (LruIgnoreIp cache answer w).1.1 = false →
  ∃ calls,
    Forall (is_rule_call answer) calls
    ∧ let r := serve_answer m cache answer w in
      let seen := trace w ++ [EvLruIgnoreIp answer; EvRecordCountInc] ++ calls in
      if existsb rule_failed calls
      then trace r.2 = seen
           ∧ recentlyIPCache r.1 = recentlyIPCache (LruIgnoreIp cache answer w).1.2
           ∧ ∀ ip, recency_entry ip r.1 = recency_entry ip cache
      else trace r.2 = seen ++ [EvLruUpdateIp answer (count_applied 0 calls)].
Proof.
  intros Hframe Haddr Hign.
  destruct (LruIgnoreIp_entries cache answer w) as [Htr Hent].
  set (families := match answer with
                   | RR_A _ _ => [TableFamilyIPv4; TableFamilyINet; TableFamilyBridge]
                   | _ => [TableFamilyIPv6; TableFamilyINet; TableFamilyBridge]
                   end).
  set (c0 := (LruIgnoreIp cache answer w).1.2) in *.
  set (w0 := with_trace (trace (LruIgnoreIp cache answer w).2 ++ [EvRecordCountInc])
               (LruIgnoreIp cache answer w).2) in *.
  assert (resolve_families cache answer w = (Some families, c0, w0)) as Hres'.
  { unfold resolve_families, bind, c0, w0.
    destruct answer as [n a|n a|n]; [| |done];
      destruct (LruIgnoreIp _ _ w) as [[ign c1] w1]; simpl in Hign; subst ign;
      by run_M. }
  destruct (serve_families_spec m answer families Hframe false 0 c0 w0)
    as (calls & Ht & Hc & Hh & Hk & Hr).
  exists calls. split; [done|].
  unfold serve_answer, bind. rewrite Hres'.
  destruct (serve_families m answer families (false, 0, c0) w0)
    as [[[h k] cache1] w1]. simpl in Ht, Hh, Hk, Hr. subst h k.
  assert (trace w1 = trace w ++ [EvLruIgnoreIp answer; EvRecordCountInc] ++ calls)
    as Hseen.
  { rewrite Ht. unfold w0. simpl. rewrite Htr. by rewrite <- !app_assoc. }
  destruct (existsb rule_failed calls); simpl.
  - split; [done|]. split; [done|].
    intros ip. rewrite <- (Hent ip). fold c0. unfold recency_entry. by rewrite Hr.
  - rewrite LruUpdateIp_trace, Hseen. by rewrite <- !app_assoc.
Qed.

Lemma demo_keeps_recency (s : Script) : applier_keeps_recency (X := demo s).
Proof. by intros rule cache answer family o. Qed.

Lemma serve_answer_recency_witness :
  let X := demo rule_broken in
  let rule := {| TableName := "filter"; SetName := "dns" |} in
  let m := {| Rules := {[ TableFamilyIPv4 := {| RuleAddElement := [rule] |} ]} |} in
  let cache := demo_cache 0 (Some (lru.mk 4 [("1.2.3.4"%string,
                  {| ExpireTime := 9000; ApplyCount := 1 |})])) in
  let answer := RR_A "example.org." "1.2.3.4" in
  let w := demo_world rule_broken [] 100 in
  ∃ calls,
    Forall (is_rule_call answer) calls
    ∧ let r := serve_answer m cache answer w in
      let seen := trace w ++ [EvLruIgnoreIp answer; EvRecordCountInc] ++ calls in
      if existsb rule_failed calls
      then trace r.2 = seen
           ∧ recentlyIPCache r.1 = recentlyIPCache (LruIgnoreIp cache answer w).1.2
           ∧ ∀ ip, recency_entry ip r.1 = recency_entry ip cache
      else trace r.2 = seen ++ [EvLruUpdateIp answer (count_applied 0 calls)].
Proof.
  intros X rule m cache answer w.
  apply (serve_answer_recency (X := X) m cache answer w).
  - apply demo_keeps_recency.
  - reflexivity.
  - reflexivity.
Defined.

Example serve_answer_error_example :
  let X := demo rule_broken in
  let rule := {| TableName := "filter"; SetName := "dns" |} in
  let m := {| Rules := {[ TableFamilyIPv4 := {| RuleAddElement := [rule] |} ]} |} in
  let cache := demo_cache 0 (Some (lru.mk 4 [])) in
  let answer := RR_A "example.org." "1.2.3.4" in
  let r := serve_answer m cache answer (demo_world rule_broken [] 100) in
  trace r.2 = [EvLruIgnoreIp answer; EvRecordCountInc;
               EvRuleServeDNS rule answer TableFamilyIPv4 (Some "no such set"%string) false]
  ∧ recency_entry "1.2.3.4" r.1 = None.
Proof. by vm_compute. Qed.

Example serve_answer_success_example :
  let X := demo all_well in
  let m := {| Rules := ∅ |} in
  let cache := demo_cache 0 (Some (lru.mk 4 [])) in
  let answer := RR_A "example.org." "1.2.3.4" in
  let r := serve_answer m cache answer (demo_world all_well [] 100) in
  trace r.2 = [EvLruIgnoreIp answer; EvRecordCountInc; EvLruUpdateIp answer 0]
  ∧ recency_entry "1.2.3.4" r.1 = Some {| ExpireTime := 5000; ApplyCount := 1 |}.
Proof. by vm_compute. Qed.

(** ** The entry point *)

(** C10, as the code has it.  When the next plugin has answered without
    error and its response holds no A and no AAAA record, [ServeDNS] writes
    the response and returns: success if the write went through, the error
    of the write with the format-error code if not.  The two calls, to the
    next plugin and to the writer, are the only events; the pool, the
    allocator and the settings are untouched, so no connection is taken
    from the pool or opened, no cache of a connection is read or changed,
    and the engine is not called. *)
Theorem ServeDNS_without_address_record {X : External} (m : NftablesHandler)
    (r resp : Msg) (w : World) (rcode : Z) (g : Engine) :
  NextOrFailure r (engine (outside w)) = ((rcode, None, Some resp), g) →
  existsb is_address_record (Answer resp) = false →
  ServeDNS m r w =
    (match (WriteMsg resp g).1 with
     | Some e => (RcodeFormatError, Some e)
     | None => (RcodeSuccess, None)
     end,
     {| outside := {| engine := (WriteMsg resp g).2;
                      ticks := S (S (ticks (outside w))) |};
        cacheList := cacheList w;
        next_ptr := next_ptr w;
        trace := trace w ++ [EvNextOrFailure r; EvWriteMsg resp];
        cacheExpiredDuration := cacheExpiredDuration w;
        setLruMaxRetryTimes := setLruMaxRetryTimes w;
        setLruMaxCount := setLruMaxCount w;
        setLruTimeout := setLruTimeout w;
        asyncMode := asyncMode w |}).
Proof.
  intros Hnext Hnone. unfold ServeDNS. run_M. rewrite Hnext. simpl.
  rewrite Hnone. simpl. run_M.
  destruct (WriteMsg resp g) as [[e|] g']; simpl;
    unfold with_outside, with_trace; simpl; by rewrite <- app_assoc.
Qed.

Lemma ServeDNS_without_address_record_witness :
  let X := demo all_well in
  let r := {| Answer := [RR_Other "example.org."] |} in
  let w := demo_world all_well [] 100 in
  (ServeDNS {| Rules := ∅ |} r w).1 = (RcodeSuccess, None)
  ∧ trace (ServeDNS {| Rules := ∅ |} r w).2 = [EvNextOrFailure r; EvWriteMsg r].
Proof.
  intros X r w.
  pose proof (ServeDNS_without_address_record (X := X) {| Rules := ∅ |} r r w
                RcodeSuccess 1%nat eq_refl eq_refl) as H.
  split; [exact (f_equal (λ x, x.1) H) | exact (f_equal (λ x, trace x.2) H)].
Defined.

(** A response without address record and a writer that fails: [ServeDNS]
    does not return success. *)
Lemma ServeDNS_write_failure :
  let X := demo write_broken in
  let r := {| Answer := [RR_Other "example.org."] |} in
  existsb is_address_record (Answer r) = false
  ∧ (ServeDNS {| Rules := ∅ |} r (demo_world write_broken [] 100)).1
    = (RcodeFormatError, Some "write failed"%string)
  ∧ (ServeDNS {| Rules := ∅ |} r (demo_world write_broken [] 100)).1
    ≠ (RcodeSuccess, None).
Proof. by vm_compute. Qed.

(** * More of the two files *)

(** ** The capacity of the recency cache *)

Section lru_keys.
Context {V : Type}.
Implicit Types (l : list (string * V)) (k : string).

Lemma find_None_keys k l : lru.find k l = None ↔ k ∉ map fst l.
Proof.
  induction l as [|[k' v] l IH]; simpl.
  - split; [intros _; apply not_elem_of_nil|done].
  - rewrite not_elem_of_cons. destruct (String.eqb k k') eqn:E.
    + apply String.eqb_eq in E as ->. split; [done|]. by intros [? _].
    + rewrite IH. split; [|by intros [_ ?]].
      intros H. split; [|done]. intros ->. by rewrite String.eqb_refl in E.
Qed.

Lemma keys_remove x k l : x ∈ map fst (lru.remove k l) → x ∈ map fst l ∧ x ≠ k.
Proof.
  induction l as [|[k' v] l IH]; simpl; [by intros ?%elem_of_nil|].
  destruct (String.eqb k k') eqn:E.
  - intros [H1 H2]%IH. split; [by apply elem_of_cons; right|done].
  - simpl. intros [->|H]%elem_of_cons.
    + split; [by apply elem_of_cons; left|].
      intros ->. by rewrite String.eqb_refl in E.
    + destruct (IH H). split; [by apply elem_of_cons; right|done].
Qed.

Lemma NoDup_remove k l : NoDup (map fst l) → NoDup (map fst (lru.remove k l)).
Proof.
  induction l as [|[k' v] l IH]; simpl; [done|].
  intros [Hk Hl]%NoDup_cons. destruct (String.eqb k k'); [by apply IH|].
  simpl. apply NoDup_cons. split; [|by apply IH].
  intros H%keys_remove. by destruct H.
Qed.

Lemma length_remove k l : (length (lru.remove k l) ≤ length l)%nat.
Proof.
  induction l as [|[k' v] l IH]; simpl; [done|].
  destruct (String.eqb k k'); simpl; lia.
Qed.

Lemma length_remove_found k l v :
  lru.find k l = Some v → (length (lru.remove k l) < length l)%nat.
Proof.
  induction l as [|[k' v'] l IH]; simpl; [done|].
  destruct (String.eqb k k'); simpl.
  - intros _. pose proof (length_remove k l). lia.
  - intros H%IH. lia.
Qed.

Lemma keys_store k f l : map fst (lru.store k f l) = map fst l.
Proof.
  induction l as [|[k' v] l IH]; simpl; [done|].
  destruct (String.eqb k k'); simpl; by rewrite ?IH.
Qed.

Lemma length_store k f l : length (lru.store k f l) = length l.
Proof.
  induction l as [|[k' v] l IH]; simpl; [done|].
  destruct (String.eqb k k'); simpl; by rewrite ?IH.
Qed.

Lemma NoDup_keys_app_l l1 l2 : NoDup (map fst (l1 ++ l2)) → NoDup (map fst l1).
Proof. rewrite map_app. by intros [? _]%NoDup_app. Qed.

Lemma NoDup_keys_removelast l : NoDup (map fst l) → NoDup (map fst (removelast l)).
Proof.
  destruct (decide (l = [])) as [->|Hne]; [done|].
  destruct (proj2 (last_is_Some l) Hne) as [x Hl].
  apply last_Some in Hl as [l' ->]. rewrite removelast_last.
  apply NoDup_keys_app_l.
Qed.

Lemma length_removelast_cons (x : string * V) l :
  length (removelast (x :: l)) = length l.
Proof.
  destruct (proj2 (last_is_Some (x :: l)) ltac:(done)) as [y Hl].
  apply last_Some in Hl as [l' Hl']. rewrite Hl', removelast_last.
  apply (f_equal length) in Hl'. rewrite length_app in Hl'. simpl in Hl'. lia.
Qed.
End lru_keys.

(** What [Get] leaves of a bounded cache. *)
Lemma lru_Get_bounded (c : lru.Cache NftableIPCache) (k : string) :
  lru_bounded c → lru_bounded (lru.Get k c).2.
Proof.
  intros [Hnd Hlen]. unfold lru.Get.
  destruct (lru.find k (lru.items c)) as [v|] eqn:Hf; [|done].
  unfold lru_bounded, lru.keys, lru.Len in *. simpl. split.
  - apply NoDup_cons. split; [|by apply NoDup_remove].
    intros H%keys_remove. by destruct H.
  - pose proof (length_remove_found k _ v Hf). lia.
Qed.

Lemma lru_Add_bounded (c : lru.Cache NftableIPCache) (k : string) (v : NftableIPCache) :
  lru.find k (lru.items c) = None → lru_bounded c → lru_bounded (lru.Add k v c).
Proof.
  intros Hf [Hnd Hlen]. unfold lru.Add. rewrite Hf.
  unfold lru_bounded, lru.keys, lru.Len in *.
  assert (NoDup (map fst ((k, v) :: lru.items c))) as Hnd'.
  { simpl. apply NoDup_cons. split; [by apply find_None_keys|done]. }
  destruct (_ <? _)%nat eqn:E; cbn [lru.items lru.cap].
  - split; [by apply NoDup_keys_removelast|].
    by rewrite length_removelast_cons.
  - split; [done|]. apply Nat.ltb_ge in E. done.
Qed.

(** X1.  The three methods of the recency cache keep it bounded: if every
    address has at most one entry and there are no more entries than the
    capacity, the same holds after [LruUpdateIp], after [LruIgnoreIp] and
    after [gc]. *)
Theorem recency_cache_stays_bounded {X : External} (cache : NftablesCache)
    (answer : RR) (k : Z) (w : World) :
  recency_bounded cache →
  recency_bounded (LruUpdateIp cache answer k w).1
  ∧ recency_bounded (LruIgnoreIp cache answer w).1.2
  ∧ recency_bounded (gc cache w).1.
Proof.
  intros Hb. split; [|split].
  - destruct (recentlyIPCache cache) as [c|] eqn:Hc;
      [|by rewrite LruUpdateIp_skip by auto].
    destruct (answer_address answer) as [a|] eqn:Ha;
      [|by rewrite LruUpdateIp_skip by auto].
    destruct (decide (a = ""%string)) as [->|Hne];
      [by rewrite LruUpdateIp_skip by auto|].
    destruct (lru.find a (lru.items c)) as [v|] eqn:Hf.
    + rewrite (LruUpdateIp_hit _ _ _ _ c a v) by done. simpl.
      intros c' [= <-]. destruct (Hb c Hc) as [Hnd Hlen].
      unfold lru_bounded, lru.keys, lru.Len in *. simpl. split.
      * apply NoDup_cons. split; [|by apply NoDup_remove].
        intros H%keys_remove. by destruct H.
      * pose proof (length_remove_found a _ v Hf). lia.
    + rewrite (LruUpdateIp_miss _ _ _ _ c a) by done. simpl.
      intros c' [= <-]. apply lru_Add_bounded; [done|by apply Hb].
  - destruct (recentlyIPCache cache) as [c|] eqn:Hc;
      [|by rewrite LruIgnoreIp_skip by auto].
    destruct (answer_address answer) as [a|] eqn:Ha;
      [|by rewrite LruIgnoreIp_skip by auto].
    destruct (decide (a = ""%string)) as [->|Hne];
      [by rewrite LruIgnoreIp_skip by auto|].
    rewrite (LruIgnoreIp_run _ _ _ c a) by done. simpl.
    intros c' [= <-]. apply lru_Get_bounded. by apply Hb.
  - unfold gc. run_M.
    destruct (recentlyIPCache cache) as [c|] eqn:Hc; [|done]. simpl.
    destruct (gc_loop_spec (clock (ticks (outside w))) c)
      as (kept & evicted & Hitems & _ & _ & Hres).
    intros c' [= <-]. rewrite Hres. destruct (Hb c Hc) as [Hnd Hlen].
    unfold lru_bounded, lru.keys, lru.Len in *. simpl.
    rewrite Hitems in Hnd, Hlen. split; [by apply NoDup_keys_app_l in Hnd|].
    rewrite length_app in Hlen. lia.
Qed.

Lemma recency_cache_stays_bounded_witness :
  let X := demo all_well in
  let e := {| ExpireTime := 9000; ApplyCount := 1 |} in
  let cache := demo_cache 0 (Some (lru.mk 2 [("10.0.0.2"%string, e); ("10.0.0.1"%string, e)])) in
  recency_bounded
    (LruUpdateIp cache (RR_A "c.example." "10.0.0.3") 1 (demo_world all_well [] 100)).1.
Proof.
  intros X e cache.
  refine (proj1 (recency_cache_stays_bounded (X := X) cache
                   (RR_A "c.example." "10.0.0.3") 1 (demo_world all_well [] 100) _)).
  intros c [= <-]. split; [|unfold lru.Len; simpl; lia].
  unfold lru.keys. simpl. apply NoDup_cons. split; [|apply NoDup_singleton].
  intros H%list_elem_of_singleton. discriminate H.
Defined.

(** X2.  [LruUpdateIp] for an address without entry on a full recency
    cache drops exactly the least recently used entry, expired or not, and
    puts the new entry in front of the others, which keep their order. *)
Theorem LruUpdateIp_full_evicts_oldest {X : External} (cache : NftablesCache)
    (answer : RR) (k : Z) (w : World) (c : lru.Cache NftableIPCache) (ip : string)
    (rest : list (string * NftableIPCache)) (oldest : string * NftableIPCache) :
  recentlyIPCache cache = Some c →
  answer_address answer = Some ip →
  ip ≠ ""%string →
  lru.find ip (lru.items c) = None →
  lru.items c = rest ++ [oldest] →
  lru.Len c = lru.cap c →
  recentlyIPCache (LruUpdateIp cache answer k w).1 =
    Some (lru.mk (lru.cap c)
            ((ip, {| ExpireTime := clock (ticks (outside w)) + setLruTimeout w;
                     ApplyCount := 1 |}) :: rest)).
Proof.
  intros Hc Ha Hip Hf Hitems Hfull.
  rewrite (LruUpdateIp_miss _ _ _ _ c ip) by done. simpl.
  unfold lru.Add. rewrite Hf. unfold lru.Len in Hfull.
  assert ((lru.cap c <? length ((ip, {| ExpireTime := clock (ticks (outside w))
                                                     + setLruTimeout w;
                                        ApplyCount := 1 |}) :: lru.items c))%nat = true)
    as ->.
  { apply Nat.ltb_lt. simpl. lia. }
  rewrite Hitems. do 2 f_equal.
  change (?x :: rest ++ [oldest]) with ((x :: rest) ++ [oldest]).
  by rewrite removelast_last.
Qed.

Lemma LruUpdateIp_full_evicts_oldest_witness :
  let X := demo all_well in
  let e := {| ExpireTime := 9000; ApplyCount := 1 |} in
  let c := lru.mk 2 [("10.0.0.2"%string, e); ("10.0.0.1"%string, e)] in
  recentlyIPCache
    (LruUpdateIp (demo_cache 0 (Some c)) (RR_A "c.example." "10.0.0.3") 1
       (demo_world all_well [] 100)).1 =
  Some (lru.mk 2 [("10.0.0.3"%string, {| ExpireTime := 5000; ApplyCount := 1 |});
                  ("10.0.0.2"%string, e)]).
Proof.
  intros X e c.
  by apply (LruUpdateIp_full_evicts_oldest (X := X) (demo_cache 0 (Some c))
              (RR_A "c.example." "10.0.0.3") 1 (demo_world all_well [] 100) c
              "10.0.0.3" [("10.0.0.2"%string, e)] ("10.0.0.1"%string, e)).
Defined.

(** ** Suppression *)

(** What a yes of [LruIgnoreIp] tells. *)
Lemma LruIgnoreIp_true_inv {X : External} (cache : NftablesCache) (answer : RR) (w : World) :
  (LruIgnoreIp cache answer w).1.1 = true →
  ∃ c ip v,
    recentlyIPCache cache = Some c
    ∧ answer_address answer = Some ip
    ∧ ip ≠ ""%string
    ∧ lru.find ip (lru.items c) = Some v
    ∧ setLruMaxRetryTimes w ≤ ApplyCount v.
Proof.
  destruct (recentlyIPCache cache) as [c|] eqn:Hc;
    [|by rewrite LruIgnoreIp_skip by auto].
  destruct (answer_address answer) as [a|] eqn:Ha;
    [|by rewrite LruIgnoreIp_skip by auto].
  destruct (decide (a = ""%string)) as [->|Hne];
    [by rewrite LruIgnoreIp_skip by auto|].
  rewrite (LruIgnoreIp_run _ _ _ c a) by done. simpl.
  destruct (lru.find a (lru.items c)) as [v|] eqn:Hf; [|done].
  intros Hle%Z.leb_le. by exists c, a, v.
Qed.

(** X3.  For a record that [LruIgnoreIp] suppresses, the loop body of
    [ServeWorker] does the look-up and nothing else: no applier is called,
    the record counter is not incremented, [LruUpdateIp] is not called and
    every recency entry keeps its value; so the record is suppressed again
    at its next occurrence, as long as [setLruMaxRetryTimes] is not
    changed. *)
Theorem suppressed_record_stays_suppressed {X : External} (m : NftablesHandler)
    (cache : NftablesCache) (answer : RR) (w : World) :
  (LruIgnoreIp cache answer w).1.1 = true →
  let r := serve_answer m cache answer w in
  trace r.2 = trace w ++ [EvLruIgnoreIp answer]
  ∧ (∀ ip, recency_entry ip r.1 = recency_entry ip cache)
  ∧ ∀ w' : World, setLruMaxRetryTimes w' = setLruMaxRetryTimes w →
      (LruIgnoreIp r.1 answer w').1.1 = true.
Proof.
  intros Hign r.
  destruct (LruIgnoreIp_true_inv cache answer w Hign)
    as (c & ip & v & Hc & Ha & Hip & Hf & Hle).
  destruct (LruIgnoreIp_entries cache answer w) as [Htr Hent].
  assert (r = ((LruIgnoreIp cache answer w).1.2, (LruIgnoreIp cache answer w).2)) as Hr.
  { unfold r, serve_answer, resolve_families, bind.
    destruct answer as [n a|n a|n]; [| |done];
      destruct (LruIgnoreIp _ _ w) as [[ign c1] w1]; simpl in Hign; by subst ign. }
  rewrite Hr. simpl. split; [done|]. split; [done|].
  intros w' Hmax.
  rewrite (LruIgnoreIp_run cache answer w c ip) by done. simpl.
  rewrite (LruIgnoreIp_run _ answer w' (lru.Get ip c).2 ip) by done. simpl.
  unfold lru.Get. rewrite Hf. simpl. rewrite String.eqb_refl, Hmax.
  by apply Z.leb_le.
Qed.

Lemma suppressed_record_stays_suppressed_witness :
  let X := demo all_well in
  let c := lru.mk 4 [("1.2.3.4"%string, {| ExpireTime := 9000; ApplyCount := 3 |})] in
  let answer := RR_A "example.org." "1.2.3.4" in
  let w := demo_world all_well [] 3 in
  trace (serve_answer {| Rules := ∅ |} (demo_cache 0 (Some c)) answer w).2
    = [EvLruIgnoreIp answer].
Proof.
  intros X c answer w.
  exact (proj1 (suppressed_record_stays_suppressed (X := X) {| Rules := ∅ |}
                  (demo_cache 0 (Some c)) answer w eq_refl)).
Defined.

(** [n] updates in a row of an address that had no entry. *)
Lemma LruUpdateIp_seq_from_absent {X : External} (cache : NftablesCache) (answer : RR)
    (ip : string) (c : lru.Cache NftableIPCache) (w : World) (ks : list Z) :
  answer_address answer = Some ip →
  ip ≠ ""%string →
  recentlyIPCache cache = Some c →
  (0 < lru.cap c)%nat →
  lru.find ip (lru.items c) = None →
  ks ≠ [] →
  Z.of_nat (length ks) ≤ int_max →
  ∃ e, recency_entry ip (LruUpdateIp_seq cache answer ks w).1 = Some e
       ∧ ApplyCount e = Z.of_nat (length ks).
Proof.
  intros Ha Hip Hc Hcap Hf Hne Hlen.
  destruct ks as [|k ks]; [done|]. simpl LruUpdateIp_seq. unfold bind.
  pose proof (LruUpdateIp_miss cache answer k w c ip Hc Ha Hip Hf) as Hmiss.
  destruct (LruUpdateIp cache answer k w) as [cache1 w1].
  injection Hmiss as -> ->.
  eexists. split.
  - apply (LruUpdateIp_seq_hit ks _ answer _ ip
             {| ExpireTime := clock (ticks (outside w)) + setLruTimeout w;
                ApplyCount := 1 |});
      [done | done | | simpl; unfold int_min; lia | simpl in *; lia].
    unfold recency_entry. simpl. by apply Peek_Add_new.
  - simpl. lia.
Qed.

(** X4.  An address that had no entry and has then been recorded [n >= 1]
    times in a row by [LruUpdateIp] is suppressed by [LruIgnoreIp] exactly
    when [n] has reached [setLruMaxRetryTimes]. *)
Theorem suppressed_once_retries_used_up {X : External} (cache : NftablesCache)
    (answer : RR) (ip : string) (c : lru.Cache NftableIPCache) (w w' : World)
    (ks : list Z) :
  answer_address answer = Some ip →
  ip ≠ ""%string →
  recentlyIPCache cache = Some c →
  (0 < lru.cap c)%nat →
  recency_entry ip cache = None →
  ks ≠ [] →
  Z.of_nat (length ks) ≤ int_max →
  (LruIgnoreIp (LruUpdateIp_seq cache answer ks w).1 answer w').1.1 =
    (setLruMaxRetryTimes w' <=? Z.of_nat (length ks)).
Proof.
  intros Ha Hip Hc Hcap Hnone Hne Hlen.
  unfold recency_entry in Hnone. rewrite Hc in Hnone.
  destruct (LruUpdateIp_seq_from_absent cache answer ip c w ks)
    as (e & He & Hcount); try done.
  unfold recency_entry in He.
  destruct (recentlyIPCache (LruUpdateIp_seq cache answer ks w).1) as [c'|] eqn:Hc';
    [|done].
  rewrite (LruIgnoreIp_run _ _ _ c' ip) by done. simpl.
  unfold lru.Peek in He. by rewrite He, Hcount.
Qed.

Lemma suppressed_once_retries_used_up_witness :
  let X := demo all_well in
  let answer := RR_A "example.org." "1.2.3.4" in
  let w := demo_world all_well [] 3 in
  let cache := demo_cache 0 (Some (lru.mk 4 [])) in
  (LruIgnoreIp (LruUpdateIp_seq cache answer [1; 1] w).1 answer w).1.1 = false
  ∧ (LruIgnoreIp (LruUpdateIp_seq cache answer [1; 0; 2] w).1 answer w).1.1 = true.
Proof.
  intros X answer w cache. split.
  - by apply (suppressed_once_retries_used_up (X := X) cache answer "1.2.3.4"
                (lru.mk 4 []) w w [1; 1]); try done; simpl; unfold int_max; lia.
  - by apply (suppressed_once_retries_used_up (X := X) cache answer "1.2.3.4"
                (lru.mk 4 []) w w [1; 0; 2]); try done; simpl; unfold int_max; lia.
Defined.

(** ** [gc] run twice *)

Lemma sweep_all_expired now (l : list (string * NftableIPCache)) :
  Forall (expired now) l → sweep now l = [].
Proof.
  induction 1 as [|x l Hx Hl IH]; simpl; [done|]. rewrite IH.
  unfold expired in Hx. destruct (now <? ExpireTime x.2) eqn:E; [|done].
  apply Z.ltb_lt in E. lia.
Qed.

Lemma sweep_app_expired now (l ev : list (string * NftableIPCache)) :
  Forall (expired now) ev → sweep now (l ++ ev) = sweep now l.
Proof.
  intros Hev. induction l as [|x l IH]; simpl.
  - by apply sweep_all_expired.
  - by rewrite IH.
Qed.

Lemma sweep_fixed now (l : list (string * NftableIPCache)) :
  (∀ kv, last l = Some kv → ¬ expired now kv) → sweep now l = l.
Proof.
  induction l as [|x l IH]; intros Hlast; simpl; [done|].
  destruct l as [|y l].
  - simpl. destruct (now <? ExpireTime x.2) eqn:E; [done|].
    exfalso. apply (Hlast x eq_refl). unfold expired. apply Z.ltb_ge in E. lia.
  - rewrite IH; [done|]. intros kv Hkv. apply Hlast. by rewrite last_cons_cons.
Qed.

(** The loop of [gc] computes [sweep]. *)
Lemma gc_loop_sweep now (c : lru.Cache NftableIPCache) :
  gc_loop now c = lru.mk (lru.cap c) (sweep now (lru.items c)).
Proof.
  destruct (gc_loop_spec now c) as (kept & evicted & Hitems & Hev & Hlast & Hres).
  rewrite Hres, Hitems. f_equal.
  by rewrite sweep_app_expired, sweep_fixed.
Qed.

Lemma sweep_later now1 now2 (l : list (string * NftableIPCache)) :
  now1 ≤ now2 → sweep now2 (sweep now1 l) = sweep now2 l.
Proof.
  intros Hle.
  destruct (gc_loop_spec now1 (lru.mk 0 l)) as (kept & evicted & Hitems & Hev & _ & Hres).
  rewrite gc_loop_sweep in Hres. simpl in Hitems, Hres. injection Hres as Hres.
  rewrite Hres, Hitems. symmetry. apply sweep_app_expired.
  eapply Forall_impl; [exact Hev|]. unfold expired. intros kv H. lia.
Qed.

(** X5.  A [gc] followed by a [gc] at a later (or the same) clock reading
    leaves the connection as the later [gc] alone would have left it: the
    first pass never removes an entry that the second would have kept. *)
Theorem gc_twice_is_the_later_gc {X : External} (cache : NftablesCache) (w w2 : World) :
  clock (ticks (outside w)) ≤ clock (ticks (outside w2)) →
  (gc (gc cache w).1 w2).1 = (gc cache w2).1.
Proof.
  intros Hle. unfold gc. run_M.
  destruct (recentlyIPCache cache) as [c|] eqn:Hc; simpl; [|by rewrite Hc].
  rewrite !gc_loop_sweep. simpl. unfold with_recentlyIPCache. simpl.
  by rewrite sweep_later.
Qed.

Lemma gc_twice_is_the_later_gc_witness :
  let X := demo all_well in
  let e t := {| ExpireTime := t; ApplyCount := 1 |} in
  let c := lru.mk 8 [("c"%string, e 5000); ("b"%string, e 1500); ("a"%string, e 500)] in
  let w := tick (demo_world all_well [] 100) in
  (gc (gc (demo_cache 0 (Some c)) w).1 (tick w)).1 = (gc (demo_cache 0 (Some c)) (tick w)).1.
Proof.
  intros X e c w.
  apply (gc_twice_is_the_later_gc (X := X)). simpl. lia.
Defined.

(** ** A connection without recency cache *)

(** X6.  With a non-positive [setLruMaxCount] the connection [NewCache]
    opens has no recency cache, and on such a connection no address is ever
    suppressed and nothing is ever recorded: [LruIgnoreIp] answers no,
    [LruUpdateIp] and [gc] leave the connection as it is, and none of the
    three reads the clock or calls the engine. *)
Theorem no_recency_cache_without_capacity {X : External} (w : World) (p : Ptr)
    (cache : NftablesCache) :
  setLruMaxCount w ≤ 0 →
  (NewCache_open w).1 = inr (p, cache) →
  recentlyIPCache cache = None
  ∧ ∀ (answer : RR) (k : Z) (w' : World),
      (LruIgnoreIp cache answer w').1 = (false, cache)
      ∧ (LruUpdateIp cache answer k w').1 = cache
      ∧ (gc cache w').1 = cache
      ∧ outside (LruIgnoreIp cache answer w').2 = outside w'
      ∧ outside (LruUpdateIp cache answer k w').2 = outside w'
      ∧ outside (gc cache w').2 = outside w'.
Proof.
  intros Hcap Hopen.
  assert (recentlyIPCache cache = None) as Hnone.
  { revert Hopen. unfold NewCache_open, openSystemNFTConn. run_M.
    destruct (nft_New (engine (outside w))) as [[err|c] g]; simpl; [done|].
    intros [= _ <-]. simpl. unfold lru.New.
    by destruct (Z.leb_spec (setLruMaxCount w) 0); [|lia]. }
  split; [done|]. intros answer k w'.
  rewrite LruIgnoreIp_skip, LruUpdateIp_skip by auto.
  unfold gc. run_M. by rewrite Hnone.
Qed.

Lemma no_recency_cache_without_capacity_witness :
  let X := demo all_well in
  let w := (SetSetLruMaxCount 0 (demo_world all_well [] 1)).2 in
  ∃ cache, (NewCache_open w).1 = inr (10%nat, cache)
           ∧ (LruIgnoreIp cache (RR_A "example.org." "1.2.3.4") w).1 = (false, cache).
Proof.
  intros X w. eexists. split; [reflexivity|].
  refine (proj1 (proj2 (no_recency_cache_without_capacity (X := X) w 10%nat _ _ eq_refl)
                   (RR_A "example.org." "1.2.3.4") 0 w)).
  simpl. lia.
Defined.

(** ** The pool and its pointers *)

Lemma NewCache_open_alloc {X : External} (w : World) (p : Ptr) (cache : NftablesCache) :
  (NewCache_open w).1 = inr (p, cache) →
  p = next_ptr w ∧ next_ptr (NewCache_open w).2 = S (next_ptr w).
Proof.
  unfold NewCache_open, openSystemNFTConn. run_M.
  destruct (nft_New (engine (outside w))) as [[err|c] g]; simpl; [done|].
  by intros [= <- _].
Qed.

Lemma NewCache_open_next_ptr {X : External} (w : World) :
  (next_ptr w ≤ next_ptr (NewCache_open w).2)%nat.
Proof. by destruct (NewCache_open_result w) as (_ & ? & _). Qed.

Lemma NewCache_pool_wf {X : External} (w : World) :
  pool_wf w →
  pool_wf (NewCache w).2
  ∧ ∀ p c, (NewCache w).1 = inr (p, c) → outside_pool p (NewCache w).2.
Proof.
  intros [Hnd Hall].
  destruct (NewCache_loop_spec (cacheList w) w eq_refl)
    as (gone & rest & Hl & _ & Hrest).
  rewrite Hl, fmap_app in Hnd, Hall.
  apply NoDup_app in Hnd as (_ & _ & Hnd). apply Forall_app in Hall as [_ Hall].
  unfold NewCache. run_M.
  destruct rest as [|[q cq] rest'].
  - rewrite Hrest.
    set (ws := scanned w (length gone) (destroyed_in_goroutines gone) []).
    destruct (NewCache_open_result ws) as (Hc & Hnp & _).
    split.
    + split; rewrite Hc; simpl; constructor.
    + intros p c Hr. destruct (NewCache_open_alloc ws p c Hr) as [-> Hn].
      split; [rewrite Hn; lia|]. rewrite Hc. apply not_elem_of_nil.
  - destruct Hrest as (_ & Hrun). simpl in Hrun. rewrite Hrun. simpl.
    set (ws := scanned w (S (length gone)) (destroyed_in_goroutines gone) rest').
    destruct (gc_frame cq ws) as (Hc & Hn & _).
    rewrite fmap_cons in Hnd, Hall. simpl in Hnd, Hall.
    apply NoDup_cons in Hnd as [Hq Hnd]. apply Forall_cons in Hall as [Hlt Hall].
    split.
    + split; rewrite Hc, ?Hn; simpl; done.
    + intros p c [= <- _]. split; [by rewrite Hn|by rewrite Hc].
Qed.

Lemma CloseCache_pool_wf {X : External} (p : Ptr) (cache : NftablesCache) (w : World) :
  pool_wf w → outside_pool p w → pool_wf (CloseCache p cache w).2.
Proof.
  intros [Hnd Hall] [Hlt Hnot].
  destruct (CloseCache_frame p cache w) as [Hn [Hc|Hc]];
    split; rewrite Hc, ?Hn; try done.
  - rewrite fmap_app. apply NoDup_app. split; [done|]. split.
    + intros x Hx [->|[]%elem_of_nil]%elem_of_cons. done.
    + apply NoDup_singleton.
  - rewrite fmap_app. apply Forall_app. split; [done|]. by repeat constructor.
Qed.

(** X7.  The pool stays well formed: if the pointers in [cacheList] are
    distinct and allocated, they still are after [NewCache], after
    [ClearCache], and after [CloseCache] of a connection that is checked
    out. *)
Theorem pool_stays_well_formed {X : External} (w : World) :
  pool_wf w →
  pool_wf (NewCache w).2
  ∧ pool_wf (ClearCache w).2
  ∧ ∀ p cache, outside_pool p w → pool_wf (CloseCache p cache w).2.
Proof.
  intros Hwf. split; [by apply NewCache_pool_wf|]. split.
  - unfold ClearCache. run_M.
    destruct (ClearCache_loop_frame (cacheList w) w eq_refl) as [Hc Hn].
    split; rewrite Hc; constructor.
  - intros p cache Hout. by apply CloseCache_pool_wf.
Qed.

Lemma pool_stays_well_formed_witness :
  let X := demo all_well in
  let w := demo_world all_well [(4%nat, demo_cache 0 None)] 100 in
  pool_wf (CloseCache 3%nat (demo_cache 0 None) w).2.
Proof.
  intros X w.
  assert (pool_wf w) as Hwf.
  { split; simpl; [apply NoDup_singleton|]. repeat constructor. }
  refine (proj2 (proj2 (pool_stays_well_formed (X := X) w Hwf)) 3%nat _ _).
  split; [simpl; lia|]. simpl. apply not_elem_of_cons.
  split; [lia|apply not_elem_of_nil].
Defined.

(** X8.  A connection that [NewCache] returns is checked out: its pointer
    is allocated and no longer in the pool, and the next [NewCache] returns
    another pointer. *)
Theorem NewCache_checks_out {X : External} (w : World) (p : Ptr) (c : NftablesCache) :
  pool_wf w →
  (NewCache w).1 = inr (p, c) →
  outside_pool p (NewCache w).2
  ∧ ∀ q c', (NewCache (NewCache w).2).1 = inr (q, c') → q ≠ p.
Proof.
  intros Hwf Hr.
  destruct (NewCache_pool_wf w Hwf) as [_ Hout]. specialize (Hout p c Hr).
  split; [done|].
  by destruct (NewCache_outside_pool p (NewCache w).2 Hout) as [_ Hne].
Qed.

Lemma NewCache_checks_out_witness :
  let X := demo all_well in
  let w := demo_world all_well [(4%nat, demo_cache 0 None)] 100 in
  outside_pool 4%nat (NewCache w).2.
Proof.
  intros X w.
  refine (proj1 (NewCache_checks_out (X := X) w 4%nat (demo_cache 0 None) _ _)).
  - split; simpl; [apply NoDup_singleton|]. repeat constructor.
  - reflexivity.
Defined.

Lemma ClearCache_loop_run {X : External} (l : list (Ptr * NftablesCache)) :
  ∀ w : World, cacheList w = l →
    ClearCache_loop l w = (tt, scanned w 0 (destroyed_in_goroutines l) []).
Proof.
  induction l as [|[p c] l IH]; intros w Hw; simpl.
  - unfold ret, scanned. f_equal.
    destruct w as [[g t] pool np tr d1 d2 d3 d4 am]; simpl in *.
    by rewrite app_nil_r, Nat.add_0_r, Hw.
  - run_M. set (w1 := with_trace _ _). rewrite (IH w1 eq_refl).
    f_equal. unfold scanned, w1. simpl. by rewrite <- app_assoc.
Qed.

(** X9.  [ClearCache] empties the pool and starts one destroying goroutine
    for each connection that was in it, front first; it reads no clock,
    calls no engine operation and allocates nothing.  The [NewCache] that
    follows opens a new connection. *)
Theorem ClearCache_empties_the_pool {X : External} (w : World) :
  let w' := (ClearCache w).2 in
  cacheList w' = []
  ∧ trace w' = trace w ++ destroyed_in_goroutines (cacheList w)
  ∧ outside w' = outside w
  ∧ next_ptr w' = next_ptr w
  ∧ trace (NewCache w').2 = trace w' ++ [EvNew].
Proof.
  unfold ClearCache. run_M. rewrite (ClearCache_loop_run (cacheList w) w eq_refl).
  simpl. repeat split.
  - by rewrite Nat.add_0_r; destruct (outside w).
  - unfold NewCache. run_M.
    set (w1 := scanned w 0 _ []).
    by destruct (NewCache_open_frame w1) as [_ ->].
Qed.

(** ** Release, then acquire *)

(** A healthy and young connection goes to the back of the pool. *)
Lemma CloseCache_requeues {X : External} (p : Ptr) (cache : NftablesCache) (w : World) :
  (nft_Flush (NftableConnection cache) (engine (outside w))).1 = None →
  HasNftableConnectionError cache = false →
  clock (ticks (outside w)) - CreateTimepoint cache ≤ cacheExpiredDuration w →
  CloseCache p cache w =
    (None, with_cacheList (cacheList w ++ [(p, cache)]) (tick (flushed cache w))).
Proof.
  intros Hflush Hh Hage. rewrite CloseCache_run. simpl. rewrite Hflush, Hh.
  by destruct (Z.ltb_spec (cacheExpiredDuration w)
                 (clock (ticks (outside w)) - CreateTimepoint cache)); [lia|].
Qed.

(** [NewCache] on a pool whose first connection is young. *)
Lemma NewCache_takes_front {X : External} (w : World) (q : Ptr) (cq : NftablesCache)
    (rest : list (Ptr * NftablesCache)) :
  cacheList w = (q, cq) :: rest →
  clock (ticks (outside w)) - CreateTimepoint cq ≤ cacheExpiredDuration w →
  NewCache w = (inr (q, (gc cq (scanned w 1 [] rest)).1), (gc cq (scanned w 1 [] rest)).2).
Proof.
  intros Hl Hage. unfold NewCache. run_M. rewrite Hl. simpl. run_M.
  destruct (Z.ltb_spec (cacheExpiredDuration w)
              (clock (ticks (outside w)) - CreateTimepoint cq)); [lia|].
  set (ws := with_outside _ _).
  replace (scanned w 1 [] rest) with ws; [by destruct (gc cq ws)|].
  unfold ws, scanned, with_outside, with_cacheList. simpl.
  rewrite app_nil_r. do 2 f_equal. lia.
Qed.

(** X10.  Release then acquire on an empty pool gives the same connection
    back: when the flush succeeds and the connection is healthy and not
    older than [cacheExpiredDuration] at both clock readings, the
    [NewCache] that follows [CloseCache] returns the same pointer, with the
    same engine connection, creation time and tables, after a [gc] of its
    recency cache; no connection is opened and the pool is empty again. *)
Theorem release_then_acquire_reuses {X : External} (p : Ptr) (cache : NftablesCache)
    (w : World) :
  cacheList w = [] →
  (nft_Flush (NftableConnection cache) (engine (outside w))).1 = None →
  HasNftableConnectionError cache = false →
  clock (ticks (outside w)) - CreateTimepoint cache ≤ cacheExpiredDuration w →
  clock (S (ticks (outside w))) - CreateTimepoint cache ≤ cacheExpiredDuration w →
  let w1 := (CloseCache p cache w).2 in
  ∃ cache',
    (NewCache w1).1 = inr (p, cache')
    ∧ cache' = (gc cache (scanned w1 1 [] [])).1
    ∧ NftableConnection cache' = NftableConnection cache
    ∧ CreateTimepoint cache' = CreateTimepoint cache
    ∧ tables cache' = tables cache
    ∧ cacheList (NewCache w1).2 = []
    ∧ trace (NewCache w1).2 = trace w1 ++ [EvGc].
Proof.
  intros Hpool Hflush Hh Hage1 Hage2 w1.
  unfold w1. rewrite (CloseCache_requeues p cache w) by done. simpl.
  set (w2 := with_cacheList _ _).
  assert (cacheList w2 = (p, cache) :: []) as Hl by (unfold w2; simpl; by rewrite Hpool).
  rewrite (NewCache_takes_front w2 p cache [] Hl) by done. simpl.
  destruct (gc_frame cache (scanned w2 1 [] [])) as (Hc & _ & Ht).
  eexists. split; [done|]. split; [done|].
  rewrite Hc, Ht. simpl. rewrite app_nil_r.
  unfold gc. run_M. by destruct (recentlyIPCache cache).
Qed.

Lemma release_then_acquire_reuses_witness :
  let X := demo all_well in
  let w := demo_world all_well [] 100 in
  ∃ cache', (NewCache (CloseCache 3%nat (demo_cache 0 None) w).2).1 = inr (3%nat, cache').
Proof.
  intros X w.
  destruct (release_then_acquire_reuses (X := X) 3%nat (demo_cache 0 None) w)
    as (cache' & H & _); try reflexivity; try (simpl; lia).
  by exists cache'.
Defined.

(** X11.  Pooled connections are reused first in, first out: after a
    healthy and young connection has been released onto a pool whose first
    connection is young too, [NewCache] returns that first connection, and
    the released one waits at the back of the pool. *)
Theorem release_waits_behind_the_pool {X : External} (p q : Ptr)
    (cache cq : NftablesCache) (rest : list (Ptr * NftablesCache)) (w : World) :
  cacheList w = (q, cq) :: rest →
  (nft_Flush (NftableConnection cache) (engine (outside w))).1 = None →
  HasNftableConnectionError cache = false →
  clock (ticks (outside w)) - CreateTimepoint cache ≤ cacheExpiredDuration w →
  clock (S (ticks (outside w))) - CreateTimepoint cq ≤ cacheExpiredDuration w →
  let w1 := (CloseCache p cache w).2 in
  (∃ cq', (NewCache w1).1 = inr (q, cq'))
  ∧ cacheList (NewCache w1).2 = rest ++ [(p, cache)].
Proof.
  intros Hpool Hflush Hh Hage1 Hage2 w1.
  unfold w1. rewrite (CloseCache_requeues p cache w) by done. simpl.
  set (w2 := with_cacheList _ _).
  assert (cacheList w2 = (q, cq) :: (rest ++ [(p, cache)])) as Hl
    by (unfold w2; simpl; by rewrite Hpool).
  rewrite (NewCache_takes_front w2 q cq _ Hl) by done. simpl.
  destruct (gc_frame cq (scanned w2 1 [] (rest ++ [(p, cache)]))) as (Hc & _ & _).
  split; [by eexists|]. by rewrite Hc.
Qed.

Lemma release_waits_behind_the_pool_witness :
  let X := demo all_well in
  let w := demo_world all_well [(4%nat, demo_cache 0 None)] 100 in
  cacheList (NewCache (CloseCache 3%nat (demo_cache 0 None) w).2).2
    = [(3%nat, demo_cache 0 None)].
Proof.
  intros X w.
  refine (proj2 (release_waits_behind_the_pool (X := X) 3%nat 4%nat (demo_cache 0 None)
                   (demo_cache 0 None) [] w _ _ _ _ _));
    try reflexivity; simpl; lia.
Defined.

(** ** [SetAddElements] *)

(** X12.  [SetAddElements] returns what the connection returns.  If that is
    an error the connection is marked, and a marked connection is never
    pooled again: whatever its flush gives and however young it is,
    [CloseCache] destroys it and leaves the pool as it was.  Without error
    the connection is unchanged. *)
Theorem failed_SetAddElements_is_never_pooled {X : External}
    {NftSet SetElement : Type}
    (nft_SetAddElements : Conn -> NftSet -> list SetElement -> Engine ->
                          option Error * Engine)
    (cache : NftablesCache) (tableCache : NftableCache) (set : NftSet)
    (elements : list SetElement) (w : World) :
  let r := SetAddElements nft_SetAddElements cache tableCache set elements w in
  let err := (nft_SetAddElements (NftableConnection cache) set elements
                (engine (outside w))).1 in
  r.1.1 = err
  ∧ (err = None → r.1.2 = cache)
  ∧ (err ≠ None →
     HasNftableConnectionError r.1.2 = true
     ∧ ∀ (p : Ptr) (w2 : World),
         cacheList (CloseCache p r.1.2 w2).2 = cacheList w2
         ∧ EvDestroy p ∈ trace (CloseCache p r.1.2 w2).2).
Proof.
  unfold SetAddElements. run_M.
  destruct (nft_SetAddElements _ _ _ _) as [[e|] g]; simpl;
    (split; [done|]); (split; [done|]); [|done].
  intros _. split; [done|]. intros p w2.
  rewrite CloseCache_run. simpl.
  set (c1 := match _ with Some _ => _ | None => _ end).
  assert (HasNftableConnectionError c1 = true) as ->.
  { unfold c1. by destruct (nft_Flush _ _).1. }
  destruct (destroy_frame p c1 (flushed (with_HasNftableConnectionError true cache) w2))
    as (Hc & _ & evs & Ht).
  split; [by rewrite Hc|]. rewrite Ht. apply elem_of_app. right.
  apply elem_of_cons. by left.
Qed.

Lemma failed_SetAddElements_is_never_pooled_witness :
  let X := demo all_well in
  let op := fun (_ : Conn) (_ : string) (_ : list string) (g : nat) =>
              (Some "no such set"%string, S g) in
  let w := demo_world all_well [] 100 in
  let r := SetAddElements (X := X) op (demo_cache 0 None)
             {| table := {| Family := TableFamilyINet; Name := "filter" |}; setCache := ∅ |}
             "dns"%string ["1.2.3.4"%string] w in
  cacheList (CloseCache 3%nat r.1.2 w).2 = [].
Proof.
  intros X op w r.
  destruct (failed_SetAddElements_is_never_pooled (X := X) op (demo_cache 0 None)
              {| table := {| Family := TableFamilyINet; Name := "filter" |}; setCache := ∅ |}
              "dns"%string ["1.2.3.4"%string] w) as (_ & _ & H).
  destruct H as [_ H]; [discriminate|].
  exact (proj1 (H 3%nat w)).
Defined.

(** ** More on the metadata cache *)

(** X13.  [MutableNftablesTable] never loses or replaces a handle: a table
    that is in the metadata cache is still there, with the same handle,
    after a call for any family and any name. *)
Theorem MutableNftablesTable_keeps_handles {X : External} (cache : NftablesCache)
    (family f : TableFamily) (tableName n : string) (w : World)
    (ts : gmap string NftableCache) (tc : NftableCache) :
  tables cache !! f = Some ts →
  ts !! n = Some tc →
  ∃ ts', tables (MutableNftablesTable cache family tableName w).1.2 !! f = Some ts'
         ∧ ts' !! n = Some tc.
Proof.
  intros Hts Htc. unfold MutableNftablesTable.
  destruct (decide (f = family)) as [->|Hne].
  - rewrite Hts.
    assert ((size ts =? 0)%nat = false) as ->.
    { apply Nat.eqb_neq. intros Hs%map_size_empty_iff. subst ts.
      by rewrite lookup_empty in Htc. }
    run_M. destruct (ts !! tableName) as [tc'|] eqn:Hlook; simpl.
    + exists ts. by rewrite lookup_insert_eq.
    + destruct (nft_AddTable _ _ _) as [t' g']; simpl.
      eexists. rewrite lookup_insert_eq. split; [done|].
      rewrite lookup_insert_ne; [done|]. intros ->. congruence.
  - set (ts0 := match tables cache !! family with Some t => t | None => ∅ end).
    destruct (size ts0 =? 0)%nat; run_M.
    + destruct (nft_ListTablesOfFamily _ _ _) as [[listed|] g]; simpl;
        (destruct (_ !! tableName); simpl;
         [|destruct (nft_AddTable _ _ _) as [t' g']; simpl]);
        exists ts; by rewrite lookup_insert_ne.
    + destruct (ts0 !! tableName); simpl;
        [|destruct (nft_AddTable _ _ _) as [t' g']; simpl];
        exists ts; by rewrite lookup_insert_ne.
Qed.

Lemma MutableNftablesTable_keeps_handles_witness :
  let X := demo all_well in
  let tc := {| table := {| Family := TableFamilyINet; Name := "filter" |};
               setCache := {[ "dns"%string := ∅ ]} |} in
  let cache := with_tables {[ TableFamilyINet := {[ "filter"%string := tc ]} ]}
                 (demo_cache 0 None) in
  ∃ ts', tables (MutableNftablesTable cache TableFamilyINet "nat"
                   (demo_world all_well [] 100)).1.2 !! TableFamilyINet = Some ts'
         ∧ ts' !! "filter"%string = Some tc.
Proof.
  intros X tc cache.
  apply (MutableNftablesTable_keeps_handles (X := X) cache TableFamilyINet
           TableFamilyINet "nat" "filter" _ {[ "filter"%string := tc ]} tc).
  - reflexivity.
  - reflexivity.
Defined.

Lemma cache_listed_other (n : string) (ts : list Table) :
  ∀ acc, Forall (λ t, Name t ≠ n) ts → cache_listed acc ts !! n = acc !! n.
Proof.
  induction ts as [|x ts IH]; intros acc Hall; [done|].
  apply Forall_cons in Hall as [Hx Hall].
  unfold cache_listed in *. simpl. rewrite IH by done. by rewrite lookup_insert_ne.
Qed.

Lemma cache_listed_found (n : string) (ts : list Table) :
  ∀ acc, Exists (λ t, Name t = n) ts →
    ∃ t, t ∈ ts ∧ Name t = n
         ∧ cache_listed acc ts !! n = Some {| table := t; setCache := ∅ |}.
Proof.
  induction ts as [|x ts IH]; intros acc Hex; [by apply Exists_nil in Hex|].
  unfold cache_listed in *. simpl.
  destruct (decide (Exists (λ t, Name t = n) ts)) as [Hin|Hnot].
  - destruct (IH (<[Name x := {| table := x; setCache := ∅ |}]> acc) Hin)
      as (t & Ht & Hn & Hl).
    exists t. split; [by apply elem_of_cons; right|]. by split.
  - apply Exists_cons in Hex as [Hx|Hex]; [|done].
    exists x. split; [by apply elem_of_cons; left|]. split; [done|].
    pose proof (cache_listed_other n ts
                  (<[Name x := {| table := x; setCache := ∅ |}]> acc)) as Ho.
    unfold cache_listed in Ho. rewrite Ho.
    + by rewrite Hx, lookup_insert_eq.
    + apply Forall_forall. intros t Ht Hn. apply Hnot.
      apply Exists_exists. by exists t.
Qed.

(** X14.  When nothing is cached for the family, [MutableNftablesTable]
    asks the engine for the tables of the family first.  If the table is
    among those listed, it is not added: the listing is the only call to
    the engine and the handle wraps a listed table of that name.  If the
    listing is nil or does not hold the name, the table is added, and the
    handle wraps what [AddTable] returns. *)
Theorem MutableNftablesTable_lists_before_adding {X : External} (cache : NftablesCache)
    (family : TableFamily) (tableName : string) (w : World) :
  (∀ ts, tables cache !! family = Some ts → ts = ∅) →
  let conn := NftableConnection cache in
  let listing := nft_ListTablesOfFamily conn family (engine (outside w)) in
  let wanted := {| Family := family; Name := tableName |} in
  let r := MutableNftablesTable cache family tableName w in
  (∀ ts, listing.1 = Some ts → Exists (λ t, Name t = tableName) ts →
     trace r.2 = trace w ++ [EvListTablesOfFamily conn family]
     ∧ table r.1.1 ∈ ts
     ∧ Name (table r.1.1) = tableName)
  ∧ ((∀ ts, listing.1 = Some ts → Forall (λ t, Name t ≠ tableName) ts) →
     trace r.2 = trace w ++ [EvListTablesOfFamily conn family; EvAddTable conn wanted]
     ∧ table r.1.1 = (nft_AddTable conn wanted listing.2).1).
Proof.
  intros Hempty conn listing wanted r.
  assert (match tables cache !! family with Some ts => ts | None => ∅ end = ∅) as Hts0.
  { destruct (tables cache !! family) as [ts|] eqn:E; [by apply Hempty|done]. }
  subst r listing conn. unfold MutableNftablesTable.
  rewrite Hts0, map_size_empty. simpl. run_M.
  destruct (nft_ListTablesOfFamily _ _ _) as [[ts|] g]; simpl.
  - fold (cache_listed ∅ ts). split.
    + intros ts' [= <-] Hex.
      destruct (cache_listed_found tableName ts ∅ Hex) as (t & Ht & Hn & Hl).
      rewrite Hl. by simpl.
    + intros Hall. specialize (Hall ts eq_refl).
      rewrite (cache_listed_other tableName ts ∅ Hall), lookup_empty.
      destruct (nft_AddTable _ _ _) as [t' g']; simpl.
      by rewrite <- app_assoc.
  - split; [by intros ts' [=]|]. intros _. rewrite lookup_empty.
    destruct (nft_AddTable _ _ _) as [t' g']; simpl.
    by rewrite <- app_assoc.
Qed.

Lemma MutableNftablesTable_lists_before_adding_witness :
  let X := demo all_well in
  let w := demo_world all_well [] 100 in
  trace (MutableNftablesTable (demo_cache 0 None) TableFamilyINet "filter" w).2
    = [EvListTablesOfFamily 0%nat TableFamilyINet;
       EvAddTable 0%nat {| Family := TableFamilyINet; Name := "filter" |}].
Proof.
  intros X w.
  refine (proj1 (proj2 (MutableNftablesTable_lists_before_adding (X := X)
                          (demo_cache 0 None) TableFamilyINet "filter" w _) _)).
  - intros ts H. unfold demo_cache in H. simpl in H. by rewrite lookup_empty in H.
  - by intros ts [=].
Defined.

(** ** The rule sets of the handler *)

(** X15.  [MutableRuleSet] is get-or-create: afterwards the handler has
    the returned rule set under the family; the rule sets of the other
    families are untouched; an existing rule set is returned as it is and
    the handler is unchanged; a missing one is created empty; and a second
    call returns the same rule set and changes nothing. *)
Theorem MutableRuleSet_get_or_create (m : NftablesHandler) (family : TableFamily) :
  let r := MutableRuleSet m family in
  Rules r.2 !! family = Some r.1
  ∧ (∀ f, f ≠ family → Rules r.2 !! f = Rules m !! f)
  ∧ (∀ rs, Rules m !! family = Some rs → r = (rs, m))
  ∧ (Rules m !! family = None → r.1 = {| RuleAddElement := [] |})
  ∧ MutableRuleSet r.2 family = r.
Proof.
  unfold MutableRuleSet.
  destruct (Rules m !! family) as [rs|] eqn:E; simpl.
  - rewrite E. repeat split; try done. by intros rs' [= <-].
  - rewrite lookup_insert_eq. repeat split; try done.
    intros f Hne. by rewrite lookup_insert_ne.
Qed.

(** ** The names of the families *)

(** X16.  [GetFamilyName] tells the seven families of the library apart:
    two of them with the same name are the same family, none of them is
    named "unknown", and every other byte is. *)
Theorem GetFamilyName_distinguishes (f g : TableFamily) :
  let known := [TableFamilyUnspecified; TableFamilyINet; TableFamilyIPv4;
                TableFamilyIPv6; TableFamilyARP; TableFamilyNetdev;
                TableFamilyBridge] in
  (GetFamilyName f = "unknown"%string ↔ f ∉ known)
  ∧ (f ∈ known → GetFamilyName f = GetFamilyName g → f = g).
Proof.
  intros known.
  assert (∀ h, h ∈ known ∨ (GetFamilyName h = "unknown"%string ∧ h ∉ known)) as Hcase.
  { intros h. unfold GetFamilyName, known.
    repeat (match goal with
            | |- context [(h =? ?c)%N] =>
                destruct (N.eqb_spec h c) as [Heq|?];
                [left; rewrite Heq; set_solver|]
            end).
    right. split; [done|].
    repeat (apply not_elem_of_cons; split; [done|]). apply not_elem_of_nil. }
  assert (∀ h, h ∈ known → GetFamilyName h ≠ "unknown"%string) as Hknown.
  { intros h Hh. unfold known in Hh.
    repeat (apply elem_of_cons in Hh as [->|Hh]; [by vm_compute|]).
    by apply elem_of_nil in Hh. }
  split.
  - split.
    + intros Hu Hin. by apply (Hknown f).
    + intros Hnot. by destruct (Hcase f) as [?|[? _]].
  - intros Hf Heq. destruct (Hcase g) as [Hg|[Hg _]].
    + unfold known in Hf, Hg.
      repeat (apply elem_of_cons in Hf as [->|Hf]);
        try (by apply elem_of_nil in Hf);
        repeat (apply elem_of_cons in Hg as [->|Hg]);
        try (by apply elem_of_nil in Hg); try done; by vm_compute in Heq.
    + rewrite Hg in Heq. by destruct (Hknown f Hf).
Qed.

Lemma GetFamilyName_distinguishes_witness :
  GetFamilyName 4%N = "unknown"%string ∧ TableFamilyIPv6 = 10%N.
Proof.
  split.
  - apply (proj1 (GetFamilyName_distinguishes 4%N 4%N)).
    repeat (apply not_elem_of_cons; split; [done|]). apply not_elem_of_nil.
  - apply (proj2 (GetFamilyName_distinguishes TableFamilyIPv6 10%N)); [|reflexivity].
    do 3 (apply elem_of_cons; right). apply elem_of_cons. by left.
Defined.

(** ** The dispatch pass and the pool *)

Lemma same_pool_trans {X : External} (w1 w2 w3 : World) :
  same_pool w1 w2 → same_pool w2 w3 → same_pool w1 w3.
Proof. intros [H1 H2] [H3 H4]. split; congruence. Qed.

Lemma LruIgnoreIp_same_pool {X : External} (cache : NftablesCache) (answer : RR) (w : World) :
  same_pool w (LruIgnoreIp cache answer w).2.
Proof.
  destruct (recentlyIPCache cache) as [c|] eqn:Hc;
    [|by rewrite LruIgnoreIp_skip by auto].
  destruct (answer_address answer) as [a|] eqn:Ha;
    [|by rewrite LruIgnoreIp_skip by auto].
  destruct (decide (a = ""%string)) as [->|Hne];
    [by rewrite LruIgnoreIp_skip by auto|].
  by rewrite (LruIgnoreIp_run _ _ _ c a).
Qed.

Lemma LruUpdateIp_same_pool {X : External} (cache : NftablesCache) (answer : RR) (k : Z)
    (w : World) :
  same_pool w (LruUpdateIp cache answer k w).2.
Proof.
  destruct (recentlyIPCache cache) as [c|] eqn:Hc;
    [|by rewrite LruUpdateIp_skip by auto].
  destruct (answer_address answer) as [a|] eqn:Ha;
    [|by rewrite LruUpdateIp_skip by auto].
  destruct (decide (a = ""%string)) as [->|Hne];
    [by rewrite LruUpdateIp_skip by auto|].
  destruct (lru.find a (lru.items c)) as [v|] eqn:Hf.
  - by rewrite (LruUpdateIp_hit _ _ _ _ c a v).
  - by rewrite (LruUpdateIp_miss _ _ _ _ c a).
Qed.

Lemma serve_rules_same_pool {X : External} (answer : RR) (family : TableFamily)
    (rules : list NftablesSetAddElement) :
  ∀ st w, same_pool w (serve_rules answer family rules st w).2.
Proof.
  induction rules as [|rule rules IH]; intros [[h k] cache] w; [done|].
  simpl. unfold call_rule. run_M.
  destruct (rule_ServeDNS rule cache answer family (outside w))
    as [[[err ignored] cache1] o]. simpl.
  set (w1 := with_trace _ _).
  assert (same_pool w w1) as H1 by done.
  destruct err as [e|]; [|destruct ignored]; simpl;
    (eapply same_pool_trans; [exact H1|apply IH]).
Qed.

Lemma serve_families_same_pool {X : External} (m : NftablesHandler) (answer : RR)
    (families : list TableFamily) :
  ∀ st w, same_pool w (serve_families m answer families st w).2.
Proof.
  induction families as [|family families IH]; intros st w; [done|].
  simpl. destruct (Rules m !! family) as [ruleSet|]; [|apply IH].
  unfold bind.
  pose proof (serve_rules_same_pool answer family (RuleAddElement ruleSet) st w) as H1.
  destruct (serve_rules answer family (RuleAddElement ruleSet) st w) as [st1 w1].
  eapply same_pool_trans; [exact H1|apply IH].
Qed.

Lemma serve_answer_same_pool {X : External} (m : NftablesHandler) (cache : NftablesCache)
    (answer : RR) (w : World) :
  same_pool w (serve_answer m cache answer w).2.
Proof.
  unfold serve_answer, resolve_families, bind.
  destruct answer as [n a|n a|n]; [| |done].
  all: match goal with
       | |- context [Some (?f :: ?fs)] => generalize (f :: fs); intros fams
       end.
  all: match goal with
       | |- context [LruIgnoreIp ?c ?ans ?w0] =>
           pose proof (LruIgnoreIp_same_pool c ans w0) as H0;
           destruct (LruIgnoreIp c ans w0) as [[[] c1] w1]; simpl in *; [done|]
       end.
  all: run_M.
  all: match goal with
       | |- context [serve_families ?m0 ?ans ?fams ?st ?w0] =>
           pose proof (serve_families_same_pool m0 ans fams st w0) as H1;
           destruct (serve_families m0 ans fams st w0) as [[[h k] c2] w2];
           simpl in H1; destruct h; simpl;
           [by eapply same_pool_trans
           |eapply same_pool_trans; [|apply LruUpdateIp_same_pool];
            by eapply same_pool_trans]
       end.
Qed.

Lemma serve_answers_same_pool {X : External} (m : NftablesHandler) (answers : list RR) :
  ∀ cache w, same_pool w (serve_answers m cache answers w).2.
Proof.
  induction answers as [|answer answers IH]; intros cache w; [done|].
  simpl. unfold bind.
  pose proof (serve_answer_same_pool m cache answer w) as H1.
  destruct (serve_answer m cache answer w) as [c1 w1].
  eapply same_pool_trans; [exact H1|apply IH].
Qed.

Lemma outside_pool_same {X : External} (p : Ptr) (w w' : World) :
  same_pool w w' → outside_pool p w → outside_pool p w'.
Proof. intros [Hc Hn] [H1 H2]. split; by rewrite ?Hc, ?Hn. Qed.

Lemma pool_wf_same {X : External} (w w' : World) :
  same_pool w w' → pool_wf w → pool_wf w'.
Proof. intros [Hc Hn] [H1 H2]. split; by rewrite ?Hc, ?Hn. Qed.

(** What [ServeWorker] does once it has its connection. *)
Lemma ServeWorker_run {X : External} (m : NftablesHandler) (r : Msg) (w : World)
    (p : Ptr) (cache : NftablesCache) :
  (NewCache w).1 = inr (p, cache) →
  ∃ cache' w3,
    same_pool (NewCache w).2 w3
    ∧ ServeWorker m r w = (None, (CloseCache p cache' w3).2).
Proof.
  intros Hnew. unfold ServeWorker, bind.
  destruct (NewCache w) as [res w1]. simpl in Hnew. subst res. run_M.
  set (w2 := with_outside _ w1).
  pose proof (serve_answers_same_pool m (Answer r) cache w2) as H2.
  destruct (serve_answers m cache (Answer r) w2) as [cache' w3]. simpl in H2.
  unfold exportRecordDuration. run_M.
  set (w4 := with_trace _ _).
  exists cache', w4. split.
  - destruct H2 as [Hc Hn]. by split.
  - by destruct (CloseCache p cache' w4).
Qed.

(** X17.  A dispatch pass never returns the error of an applier or of the
    flush: [ServeWorker] returns an error exactly when [NewCache] does, and
    then that one.  The pass keeps the pool well formed, and a pointer that
    is allocated and outside the pool, such as that of a destroyed
    connection, is still outside the pool after the pass. *)
Theorem ServeWorker_and_the_pool {X : External} (m : NftablesHandler) (r : Msg)
    (w : World) :
  (ServeWorker m r w).1 = match (NewCache w).1 with
                          | inl err => Some err
                          | inr _ => None
                          end
  ∧ (pool_wf w → pool_wf (ServeWorker m r w).2)
  ∧ ∀ q, outside_pool q w → outside_pool q (ServeWorker m r w).2.
Proof.
  destruct (NewCache w).1 as [err|[p cache]] eqn:Hnew.
  - rewrite (ServeWorker_NewCache_error m r w err Hnew). simpl.
    split; [done|]. split.
    + intros Hwf. by apply NewCache_pool_wf.
    + intros q Hq. by apply NewCache_outside_pool.
  - destruct (ServeWorker_run m r w p cache Hnew) as (cache' & w3 & Hsame & Hrun).
    rewrite Hrun. simpl. split; [done|]. split.
    + intros Hwf. destruct (NewCache_pool_wf w Hwf) as [Hwf1 Hout].
      apply CloseCache_pool_wf.
      * by apply (pool_wf_same (NewCache w).2).
      * apply (outside_pool_same p (NewCache w).2); [done|]. by apply (Hout p cache).
    + intros q Hq. destruct (NewCache_outside_pool q w Hq) as [Hq1 Hne].
      apply CloseCache_outside_pool; [by apply (Hne p cache)|].
      by apply (outside_pool_same q (NewCache w).2).
Qed.

Lemma ServeWorker_and_the_pool_witness :
  let X := demo rule_broken in
  let rule := {| TableName := "filter"; SetName := "dns" |} in
  let m := {| Rules := {[ TableFamilyIPv4 := {| RuleAddElement := [rule] |} ]} |} in
  let w := demo_world rule_broken [(4%nat, demo_cache 0 None)] 100 in
  (ServeWorker m {| Answer := [RR_A "example.org." "1.2.3.4"] |} w).1 = None
  ∧ outside_pool 3%nat (ServeWorker m {| Answer := [RR_A "example.org." "1.2.3.4"] |} w).2.
Proof.
  intros X rule m w.
  destruct (ServeWorker_and_the_pool (X := X) m
              {| Answer := [RR_A "example.org." "1.2.3.4"] |} w) as (H1 & _ & H3).
  split; [exact H1|]. apply H3.
  split; [simpl; lia|]. simpl. apply not_elem_of_cons.
  split; [lia|apply not_elem_of_nil].
Defined.

(** ** The other paths of [ServeDNS] *)

(** The world after the call of the next plugin: the clock read once
    before it, the engine in the state [g]. *)
Lemma ServeDNS_next_error {X : External} (m : NftablesHandler) (r : Msg) (w : World)
    (rcode : Z) (e : Error) (nw : option Msg) (g : Engine) :
  NextOrFailure r (engine (outside w)) = ((rcode, Some e, nw), g) →
  ServeDNS m r w =
    ((rcode, Some e),
     with_outside {| engine := g; ticks := S (ticks (outside w)) |}
       (with_trace (trace w ++ [EvNextOrFailure r]) w)).
Proof. intros Hnext. unfold ServeDNS. run_M. by rewrite Hnext. Qed.

(** X18.  Without a response to work on, [ServeDNS] writes nothing and
    dispatches nothing: if the next plugin returns an error, that error and
    the code of the plugin are returned; if it returns none but has
    captured no message, the result is the format-error code with the
    error "no answer received".  In both cases the call of the next plugin
    is the only event and the pool is untouched. *)
Theorem ServeDNS_without_response {X : External} (m : NftablesHandler) (r : Msg)
    (w : World) :
  let next := (NextOrFailure r (engine (outside w))).1 in
  let res := ServeDNS m r w in
  (is_error next.1.2 = true ∨ next.2 = None) →
  res.1 = match next.1.2 with
          | Some e => (next.1.1, Some e)
          | None => (RcodeFormatError, Some "no answer received"%string)
          end
  ∧ trace res.2 = trace w ++ [EvNextOrFailure r]
  ∧ same_pool w res.2.
Proof.
  intros next res Hcase. subst next res. unfold ServeDNS. run_M.
  destruct (NextOrFailure r (engine (outside w))) as [[[rcode [e|]] [resp|]] g];
    simpl in *; try done.
  by destruct Hcase.
Qed.

Lemma ServeDNS_without_response_witness :
  (ServeDNS (X := upstream_down) {| Rules := ∅ |} {| Answer := [] |}
     upstream_down_world).1
    = (RcodeServerFailure, Some "upstream failed"%string).
Proof.
  refine (proj1 (ServeDNS_without_response (X := upstream_down) {| Rules := ∅ |}
                   {| Answer := [] |} upstream_down_world _)).
  by left.
Defined.

(** X19.  In asynchronous mode, for a response with an address record,
    [ServeDNS] writes the response, then starts [ServeWorker] in a
    goroutine on a copy of the response, and runs no dispatch itself: these
    two and the call of the next plugin are the only events and the pool is
    untouched.  A failed write is returned with the server-failure code,
    the worker having been started all the same; otherwise the code of the
    next plugin is returned without error. *)
Theorem ServeDNS_async {X : External} (m : NftablesHandler) (r resp : Msg) (w : World)
    (rcode : Z) (g : Engine) :
  asyncMode w = true →
  NextOrFailure r (engine (outside w)) = ((rcode, None, Some resp), g) →
  existsb is_address_record (Answer resp) = true →
  let res := ServeDNS m r w in
  res.1 = match (WriteMsg resp g).1 with
          | Some e => (RcodeServerFailure, Some e)
          | None => (rcode, None)
          end
  ∧ trace res.2 = trace w ++ [EvNextOrFailure r; EvWriteMsg resp; EvGoServeWorker resp]
  ∧ same_pool w res.2.
Proof.
  intros Hasync Hnext Hrec res. subst res. unfold ServeDNS. run_M.
  rewrite Hnext. simpl. rewrite Hrec. simpl. run_M. rewrite Hasync. run_M.
  destruct (WriteMsg resp g) as [[e|] g']; simpl;
    rewrite <- !app_assoc; by repeat split.
Qed.

Lemma ServeDNS_async_witness :
  let X := demo write_broken in
  let r := {| Answer := [RR_A "example.org." "1.2.3.4"] |} in
  let w := (SetNftableAsyncMode true (demo_world write_broken [] 100)).2 in
  (ServeDNS {| Rules := ∅ |} r w).1 = (RcodeServerFailure, Some "write failed"%string)
  ∧ trace (ServeDNS {| Rules := ∅ |} r w).2
    = [EvNextOrFailure r; EvWriteMsg r; EvGoServeWorker r].
Proof.
  intros X r w.
  destruct (ServeDNS_async (X := X) {| Rules := ∅ |} r r w RcodeSuccess 1%nat
              eq_refl eq_refl eq_refl) as (H1 & H2 & _).
  split; [exact H1|exact H2].
Defined.

(** X20.  In synchronous mode, for a response with an address record,
    [ServeDNS] runs [ServeWorker] on the response to its end and writes the
    response only then; it returns the code of the next plugin without
    error whatever the worker and the writer return. *)
Theorem ServeDNS_sync {X : External} (m : NftablesHandler) (r resp : Msg) (w : World)
    (rcode : Z) (g : Engine) :
  asyncMode w = false →
  NextOrFailure r (engine (outside w)) = ((rcode, None, Some resp), g) →
  existsb is_address_record (Answer resp) = true →
  let w1 := with_outside {| engine := g; ticks := S (S (ticks (outside w))) |}
              (with_trace (trace w ++ [EvNextOrFailure r]) w) in
  let worker := ServeWorker m resp w1 in
  let res := ServeDNS m r w in
  res.1 = (rcode, None)
  ∧ trace res.2 = trace worker.2 ++ [EvWriteMsg resp]
  ∧ same_pool worker.2 res.2.
Proof.
  intros Hasync Hnext Hrec w1 worker res. subst res worker. unfold ServeDNS. run_M.
  rewrite Hnext. simpl. rewrite Hrec. simpl. run_M. rewrite Hasync. run_M.
  match goal with
  | |- context [ServeWorker m resp ?w0] => change w0 with w1
  end.
  destruct (ServeWorker m resp w1) as [werr w2]. simpl.
  by destruct (WriteMsg resp (engine (outside w2))) as [[e|] g'].
Qed.

Lemma ServeDNS_sync_witness :
  let X := demo write_broken in
  let r := {| Answer := [RR_A "example.org." "1.2.3.4"] |} in
  (ServeDNS {| Rules := ∅ |} r (demo_world write_broken [] 100)).1 = (RcodeSuccess, None).
Proof.
  intros X r.
  exact (proj1 (ServeDNS_sync (X := X) {| Rules := ∅ |} r r
                  (demo_world write_broken [] 100) RcodeSuccess 1%nat
                  eq_refl eq_refl eq_refl)).
Defined.

(** ** Dispatch without rules *)

Lemma serve_families_without_rules {X : External} (m : NftablesHandler) (answer : RR)
    (families : list TableFamily) :
  (∀ f rs, Rules m !! f = Some rs → RuleAddElement rs = []) →
  ∀ st w, serve_families m answer families st w = (st, w).
Proof.
  intros Hempty. induction families as [|family families IH]; intros st w; [done|].
  simpl. destruct (Rules m !! family) as [rs|] eqn:E; [|apply IH].
  rewrite (Hempty family rs E). simpl. unfold bind, ret. apply IH.
Qed.

(** X21.  A handler whose rule sets are all empty, as [NewNftablesHandler]
    and [MutableRuleSet] leave them, calls no applier; an address record
    that is not suppressed is counted and recorded all the same:
    [LruUpdateIp] is called for it with the counter 0. *)
Theorem dispatch_without_rules_still_records {X : External} (m : NftablesHandler)
    (cache : NftablesCache) (answer : RR) (w : World) :
  (∀ f rs, Rules m !! f = Some rs → RuleAddElement rs = []) →
  is_address_record answer = true →
  (LruIgnoreIp cache answer w).1.1 = false →
  let looked := LruIgnoreIp cache answer w in
  let counted := with_trace (trace looked.2 ++ [EvRecordCountInc]) looked.2 in
  serve_answer m cache answer w = LruUpdateIp looked.1.2 answer 0 counted
  ∧ trace (serve_answer m cache answer w).2 =
      trace w ++ [EvLruIgnoreIp answer; EvRecordCountInc; EvLruUpdateIp answer 0].
Proof.
  intros Hempty Haddr Hign looked counted.
  assert (serve_answer m cache answer w = LruUpdateIp looked.1.2 answer 0 counted) as Hrun.
  { subst counted looked. unfold serve_answer, resolve_families, bind.
    destruct answer as [n a|n a|n]; [| |done];
      destruct (LruIgnoreIp _ _ w) as [[ign c1] w1]; simpl in Hign; subst ign;
      unfold bind, ret, emit, read; cbn -[serve_families LruUpdateIp];
      by rewrite serve_families_without_rules. }
  split; [done|]. rewrite Hrun, LruUpdateIp_trace. subst counted looked. simpl.
  destruct (LruIgnoreIp_entries cache answer w) as [-> _].
  by rewrite <- !app_assoc.
Qed.

Lemma dispatch_without_rules_still_records_witness :
  let X := demo all_well in
  let answer := RR_A "example.org." "1.2.3.4" in
  let m := (MutableRuleSet NewNftablesHandler TableFamilyIPv4).2 in
  trace (serve_answer m (demo_cache 0 (Some (lru.mk 4 []))) answer
           (demo_world all_well [] 100)).2
    = [EvLruIgnoreIp answer; EvRecordCountInc; EvLruUpdateIp answer 0].
Proof.
  intros X answer m.
  refine (proj2 (dispatch_without_rules_still_records (X := X) m _ answer _ _ _ _));
    [|reflexivity|reflexivity].
  intros f rs. unfold m, MutableRuleSet, NewNftablesHandler. simpl.
  rewrite lookup_empty. simpl.
  intros [[_ <-]|[_ H]]%lookup_insert_Some; [reflexivity|].
  by rewrite lookup_empty in H.
Defined.

(** ** A look-up and the next eviction *)

Lemma remove_absent {V : Type} (k : string) (l : list (string * V)) :
  k ∉ map fst l → lru.remove k l = l.
Proof.
  induction l as [|[k' v] l IH]; [done|]. simpl.
  intros [Hne Hnin]%not_elem_of_cons.
  destruct (String.eqb k k') eqn:E; [by apply String.eqb_eq in E|].
  by rewrite IH.
Qed.

Lemma find_oldest {V : Type} (k : string) (v : V) (rest : list (string * V)) :
  k ∉ map fst rest → lru.find k (rest ++ [(k, v)]) = Some v.
Proof.
  induction rest as [|[k' v'] rest IH]; simpl.
  - intros _. by rewrite String.eqb_refl.
  - intros [Hne Hnin]%not_elem_of_cons.
    destruct (String.eqb k k') eqn:E; [by apply String.eqb_eq in E|]. by apply IH.
Qed.

Lemma remove_oldest {V : Type} (k : string) (v : V) (rest : list (string * V)) :
  k ∉ map fst rest → lru.remove k (rest ++ [(k, v)]) = rest.
Proof.
  induction rest as [|[k' v'] rest IH]; simpl.
  - intros _. by rewrite String.eqb_refl.
  - intros [Hne Hnin]%not_elem_of_cons.
    destruct (String.eqb k k') eqn:E; [by apply String.eqb_eq in E|]. by rewrite IH.
Qed.

Lemma NoDup_keys_oldest {V : Type} (k : string) (v : V) (rest : list (string * V)) :
  NoDup (map fst (rest ++ [(k, v)])) → k ∉ map fst rest.
Proof.
  rewrite map_app. intros (_ & Hdis & _)%NoDup_app Hin.
  apply (Hdis k Hin). simpl. by left.
Qed.

(** X22.  A look-up by [LruIgnoreIp] decides the next eviction.  In a full
    recency cache whose oldest entry is the address [ip], recording a new
    address evicts [ip]; after a look-up of [ip] the same call evicts another
    entry, and [ip] keeps its counter and its expiry time. *)
Theorem lookup_saves_from_eviction {X : External} (cache : NftablesCache)
    (looked fresh : RR) (k : Z) (w w' : World) (c : lru.Cache NftableIPCache)
    (ip ip' : string) (v : NftableIPCache) (rest : list (string * NftableIPCache)) :
  recentlyIPCache cache = Some c →
  lru.items c = rest ++ [(ip, v)] →
  rest ≠ [] →
  NoDup (lru.keys c) →
  lru.Len c = lru.cap c →
  answer_address looked = Some ip → ip ≠ ""%string →
  answer_address fresh = Some ip' → ip' ≠ ""%string →
  lru.find ip' (lru.items c) = None →
  recency_entry ip (LruUpdateIp cache fresh k w').1 = None
  ∧ recency_entry ip (LruUpdateIp (LruIgnoreIp cache looked w).1.2 fresh k w').1 = Some v.
Proof.
  intros Hrec Hitems Hrest Hnodup Hlen Hlooked Hip Hfresh Hip' Hnew.
  unfold lru.keys in Hnodup. rewrite Hitems in Hnodup.
  pose proof (NoDup_keys_oldest _ _ _ Hnodup) as Hnin.
  assert (ip ≠ ip') as Hne.
  { intros <-. rewrite Hitems, find_oldest in Hnew; done. }
  assert (String.eqb ip ip' = false) as Heqb by by apply String.eqb_neq.
  split.
  - rewrite (LruUpdateIp_miss cache fresh k w' c ip') by done.
    unfold recency_entry, lru.Peek, lru.Add. simpl. rewrite Hnew.
    unfold lru.Len in Hlen.
    destruct (Nat.ltb_spec (lru.cap c) (S (length (lru.items c)))) as [_|?]; [|lia].
    rewrite Hitems, removelast_last.
    destruct (rest ++ [(ip, v)]) eqn:E; [by destruct rest|].
    cbn [lru.items lru.find]. rewrite Heqb.
    by apply find_None_keys.
  - rewrite (LruIgnoreIp_run cache looked w c ip Hrec Hlooked Hip). simpl.
    unfold lru.Get. rewrite Hitems, (find_oldest ip v rest Hnin), remove_oldest by done.
    simpl.
    erewrite (LruUpdateIp_miss _ fresh k w' _ ip'); [|reflexivity|done|done|].
    2:{ simpl. rewrite String.eqb_sym, Heqb.
        rewrite Hitems in Hnew. by apply find_app_None in Hnew. }
    unfold recency_entry, lru.Peek, lru.Add. simpl.
    rewrite String.eqb_sym, Heqb.
    rewrite Hitems in Hnew. apply find_app_None in Hnew. rewrite Hnew.
    unfold lru.Len in Hlen. rewrite Hitems, length_app in Hlen. simpl in Hlen.
    destruct (Nat.ltb_spec (lru.cap c) (S (S (length rest)))) as [_|?]; [|lia].
    destruct rest as [|r rest']; [done|].
    cbn [lru.items removelast lru.find]. simpl.
    by rewrite Heqb, String.eqb_refl.
Qed.

Lemma lookup_saves_from_eviction_witness :
  let X := demo all_well in
  let e1 := {| ExpireTime := 9000; ApplyCount := 2 |} in
  let e2 := {| ExpireTime := 9500; ApplyCount := 1 |} in
  let c := lru.mk 2 [("10.0.0.2"%string, e2); ("10.0.0.1"%string, e1)] in
  let cache := demo_cache 0 (Some c) in
  let w := demo_world all_well [] 100 in
  recency_entry "10.0.0.1" (LruUpdateIp cache (RR_A "c.example." "10.0.0.3") 1 w).1 = None
  ∧ recency_entry "10.0.0.1"
      (LruUpdateIp (LruIgnoreIp cache (RR_A "a.example." "10.0.0.1") w).1.2
         (RR_A "c.example." "10.0.0.3") 1 w).1 = Some e1.
Proof.
  intros X e1 e2 c cache w.
  apply (lookup_saves_from_eviction (X := X) cache (RR_A "a.example." "10.0.0.1")
           (RR_A "c.example." "10.0.0.3") 1 w w c "10.0.0.1" "10.0.0.3" e1
           [("10.0.0.2"%string, e2)]); try done.
  unfold lru.keys. simpl.
  apply NoDup_cons. split; [|apply NoDup_singleton].
  intros Hin%list_elem_of_singleton. discriminate.
Defined.

(** ** The first pass for an address *)

(** [NewCache] on an empty pool, with an engine that opens a connection. *)
Lemma NewCache_fresh {X : External} (w : World) (conn : Conn) :
  cacheList w = [] →
  (nft_New (engine (outside w))).1 = inr conn →
  ∃ cache0 w1,
    NewCache w = (inr (next_ptr w, cache0), w1)
    ∧ recentlyIPCache cache0 = lru.New (setLruMaxCount w)
    ∧ cacheList w1 = []
    ∧ trace w1 = trace w ++ [EvNew].
Proof.
  intros Hl Hnew. unfold NewCache, NewCache_open, openSystemNFTConn. run_M.
  rewrite Hl. simpl. run_M.
  destruct (nft_New (engine (outside w))) as [[err|c] g]; simpl in *; [done|].
  by eexists _, _.
Qed.

(** The loop body for an address the recency cache does not hold. *)
Lemma serve_answer_new_address {X : External} (m : NftablesHandler)
    (cache : NftablesCache) (answer : RR) (w : World)
    (c : lru.Cache NftableIPCache) (ip : string) :
  applier_keeps_recency →
  recentlyIPCache cache = Some c →
  (0 < lru.cap c)%nat →
  answer_address answer = Some ip →
  ip ≠ ""%string →
  lru.find ip (lru.items c) = None →
  ∃ calls,
    Forall (is_rule_call answer) calls
    ∧ let r := serve_answer m cache answer w in
      trace r.2 = trace w ++ [EvLruIgnoreIp answer; EvRecordCountInc] ++ calls
                    ++ (if existsb rule_failed calls then []
                        else [EvLruUpdateIp answer (count_applied 0 calls)])
      ∧ ∃ e, recency_entry ip r.1 =
               if existsb rule_failed calls then None
               else Some {| ExpireTime := e; ApplyCount := 1 |}.
Proof.
  intros Hframe Hrec Hcap Haddr Hip Hnone.
  pose proof (LruIgnoreIp_run cache answer w c ip Hrec Haddr Hip) as Hlook.
  rewrite Hnone in Hlook. unfold lru.Get in Hlook. rewrite Hnone in Hlook.
  simpl in Hlook.
  set (families := match answer with
                   | RR_A _ _ => [TableFamilyIPv4; TableFamilyINet; TableFamilyBridge]
                   | _ => [TableFamilyIPv6; TableFamilyINet; TableFamilyBridge]
                   end).
  set (c0 := with_recentlyIPCache (Some c) cache) in *.
  set (w0 := with_trace (trace w ++ [EvLruIgnoreIp answer; EvRecordCountInc]) w).
  assert (resolve_families cache answer w = (Some families, c0, w0)) as Hres.
  { unfold resolve_families, bind.
    destruct answer as [n a|n a|n]; [| |done]; rewrite Hlook; run_M;
      unfold w0, with_trace; simpl; by rewrite <- app_assoc. }
  destruct (serve_families_spec m answer families Hframe false 0 c0 w0)
    as (calls & Ht & Hc & Hh & Hk & Hr).
  exists calls. split; [done|].
  unfold serve_answer, bind. rewrite Hres.
  destruct (serve_families m answer families (false, 0, c0) w0)
    as [[[h k] cache1] w1]. simpl in Ht, Hh, Hk, Hr. subst h k.
  destruct (existsb rule_failed calls); simpl.
  - split; [by rewrite Ht, app_nil_r, <- app_assoc|].
    exists 0. unfold recency_entry. by rewrite Hr.
  - rewrite (LruUpdateIp_miss cache1 answer _ w1 c ip) by done. simpl. split.
    + rewrite Ht. unfold w0. simpl. by rewrite <- !app_assoc.
    + eexists. unfold recency_entry. simpl. by apply Peek_Add_new.
Qed.

(** The events of [CloseCache] start with the flush. *)
Lemma CloseCache_trace {X : External} (p : Ptr) (cache : NftablesCache) (w : World) :
  ∃ tail, trace (CloseCache p cache w).2 =
            trace w ++ EvFlush (NftableConnection cache) :: tail.
Proof.
  assert (∀ c' w', trace w' = trace w ++ [EvFlush (NftableConnection cache)] →
            ∃ tail, trace (destroy p c' w').2 =
                      trace w ++ EvFlush (NftableConnection cache) :: tail) as Hd.
  { intros c' w' Hw'. destruct (destroy_frame p c' w') as (_ & _ & evs & ->).
    rewrite Hw', <- app_assoc. by eexists. }
  rewrite CloseCache_run. cbv zeta.
  destruct (HasNftableConnectionError _); [by apply Hd|].
  destruct (_ <? _); [by apply Hd|].
  by exists [].
Qed.

(** X23.  The first pass for an address, on an empty pool and with an
    engine that opens a connection: one connection is opened, the address
    is looked up and counted, the appliers are called, and the pass ends
    with the duration and the release.  The connection holds the address
    with the counter 1 when no applier has failed, whether a rule applied
    or not, and does not hold it when one has failed; after the pass the
    pool is empty or holds this connection alone. *)
Theorem first_pass_records_the_address {X : External} (m : NftablesHandler)
    (r : Msg) (answer : RR) (ip : string) (conn : Conn) (w : World) :
  applier_keeps_recency →
  Answer r = [answer] →
  answer_address answer = Some ip →
  ip ≠ ""%string →
  cacheList w = [] →
  (nft_New (engine (outside w))).1 = inr conn →
  0 < setLruMaxCount w →
  ∃ calls cache' d tail e,
    Forall (is_rule_call answer) calls
    ∧ trace (ServeWorker m r w).2 =
        trace w ++ [EvNew; EvLruIgnoreIp answer; EvRecordCountInc] ++ calls
          ++ (if existsb rule_failed calls then []
              else [EvLruUpdateIp answer (count_applied 0 calls)])
          ++ EvRecordDurationObserve d :: EvFlush (NftableConnection cache') :: tail
    ∧ recency_entry ip cache' =
        (if existsb rule_failed calls then None
         else Some {| ExpireTime := e; ApplyCount := 1 |})
    ∧ (cacheList (ServeWorker m r w).2 = []
       ∨ cacheList (ServeWorker m r w).2 = [(next_ptr w, cache')]).
Proof.
  intros Hframe Hans Haddr Hip Hpool Hnew Hcount.
  destruct (NewCache_fresh w conn Hpool Hnew) as (cache0 & w1 & Hrun & Hrec & Hl1 & Ht1).
  unfold lru.New in Hrec.
  destruct (Z.leb_spec (setLruMaxCount w) 0) as [?|_]; [lia|].
  unfold ServeWorker, bind. rewrite Hrun, Hans. run_M.
  set (w2 := with_outside _ w1).
  destruct (serve_answer_new_address m cache0 answer w2 _ ip Hframe Hrec)
    as (calls & Hcalls & Htr & e & Hent); [simpl; lia|done|done|done|].
  pose proof (serve_answer_same_pool m cache0 answer w2) as [Hsame _].
  destruct (serve_answer m cache0 answer w2) as [cache' w3].
  simpl in Htr, Hent, Hsame. unfold exportRecordDuration. run_M.
  set (w4 := with_trace _ _).
  assert (cacheList w4 = []) as Hl4 by (unfold w4; simpl; by rewrite Hsame).
  destruct (CloseCache_trace (next_ptr w) cache' w4) as [tail Htail].
  destruct (CloseCache_frame (next_ptr w) cache' w4) as [_ Hlist].
  rewrite Hl4 in Hlist. simpl in Hlist.
  destruct (CloseCache (next_ptr w) cache' w4) as [cerr w5]. simpl in *.
  eexists calls, cache', _, tail, e. split; [done|]. split; [|by split].
  rewrite Htail. unfold w4. simpl. rewrite Htr. unfold w2. simpl. rewrite Ht1.
  repeat (rewrite <- app_assoc; simpl). reflexivity.
Qed.

Lemma first_pass_records_the_address_witness :
  let X := demo all_well in
  let rule := {| TableName := "filter"; SetName := "dns" |} in
  let m := {| Rules := {[ TableFamilyIPv4 := {| RuleAddElement := [rule] |} ]} |} in
  let answer := RR_A "example.org." "1.2.3.4" in
  let r := {| Answer := [answer] |} in
  let w := demo_world all_well [] 3 in
  ∃ calls cache' d tail e,
    Forall (is_rule_call answer) calls
    ∧ trace (ServeWorker m r w).2 =
        trace w ++ [EvNew; EvLruIgnoreIp answer; EvRecordCountInc] ++ calls
          ++ (if existsb rule_failed calls then []
              else [EvLruUpdateIp answer (count_applied 0 calls)])
          ++ EvRecordDurationObserve d :: EvFlush (NftableConnection cache') :: tail
    ∧ recency_entry "1.2.3.4" cache' =
        (if existsb rule_failed calls then None
         else Some {| ExpireTime := e; ApplyCount := 1 |})
    ∧ (cacheList (ServeWorker m r w).2 = []
       ∨ cacheList (ServeWorker m r w).2 = [(next_ptr w, cache')]).
Proof.
  intros X rule m answer r w.
  apply (first_pass_records_the_address (X := X) m r answer "1.2.3.4" 0%nat w);
    [apply demo_keeps_recency|reflexivity|reflexivity|discriminate|reflexivity
    |reflexivity|reflexivity].
Defined.
